(** * TimedEventQueue: a shallow embedding of [TimedEventQueue.hpp]

    The class keeps two [std::map]s, [_ts2Val] and [_val2Ts], an exit flag,
    a worker thread and a condition variable.  Every member function below is
    the body of the C++ member function of the same name, run atomically:
    the mutators hold [_mutex] for their whole body, and so does the worker
    from its wake-up to the end of its inner loop.  Timestamps are the tick
    counts of [std::chrono::steady_clock] time points. *)

From stdpp Require Import gmap list sorting.
From Stdlib Require Import ZArith Lia.

Local Open Scope Z_scope.

(** ** [std::map] member functions used by the class *)

Module StdMap.
Section ops.
Context {K A : Type} `{Countable K}.

(** [m.emplace(k, a)]: inserts only when no element has key [k]. *)
Definition emplace (k : K) (a : A) (m : gmap K A) : gmap K A :=
  match m !! k with
  | Some _ => m
  | None => <[k := a]> m
  end.

(** [m.erase(k)] and [m.erase(it)] with [it] pointing at key [k]. *)
Definition erase (k : K) (m : gmap K A) : gmap K A := delete k m.

(** [m.extract(k)]: the node with key [k] (an empty handle when there is
    none) and the map without it. *)
Definition extract (k : K) (m : gmap K A) : option (K * A) * gmap K A :=
  (pair k <$> m !! k, delete k m).

(** [m.insert(std::move(node))] for a non-empty node handle: the node is
    linked in when its key is free; otherwise the map is unchanged and the
    node dies with the returned [insert_return_type]. *)
Definition insert_node (node : K * A) (m : gmap K A) : gmap K A :=
  match m !! node.1 with
  | Some _ => m
  | None => <[node.1 := node.2]> m
  end.
End ops.

(** [m.begin()] of a map ordered by [<] on its keys: the element with the
    least key, [None] when [begin() == end()]. *)
Definition earlier {A} (x y : Z * A) : Z * A :=
  if (x.1 <=? y.1)%Z then x else y.

Definition begin {A} (m : gmap Z A) : option (Z * A) :=
  match map_to_list m with
  | [] => None
  | x :: l => Some (foldr earlier x l)
  end.
End StdMap.

Import StdMap.

(** ** The clock *)

(** [std::chrono::hours(h)] in ticks of [steady_clock] (nanoseconds). *)
Definition hours (h : Z) : Z := h * 3600 * 1000000000.

(** The macro [CENTENNIAL], expanded where [TIME::now()] reads [now]. *)
Definition CENTENNIAL (now : Z) : Z := now + hours (100 * 365 * 24).

(** ** The class *)

Section queue.
(** The template parameter [T] with its value-initialised element [T()]. *)
Context {T : Type} `{Countable T} (T_default : T).

(** [_thread] is kept as its [joinable()] bit and [_cv] as the number of
    [notify_one] calls made on it. *)
Record TimedEventQueue := mkQueue {
  _ts2Val : gmap Z T;
  _val2Ts : gmap T Z;
  _exit : bool;
  _thread_joinable : bool;
  _cv_notified : nat
}.

Definition set_ts2Val (m : gmap Z T) (q : TimedEventQueue) :=
  mkQueue m (_val2Ts q) (_exit q) (_thread_joinable q) (_cv_notified q).
Definition set_val2Ts (m : gmap T Z) (q : TimedEventQueue) :=
  mkQueue (_ts2Val q) m (_exit q) (_thread_joinable q) (_cv_notified q).
Definition set_exit (b : bool) (q : TimedEventQueue) :=
  mkQueue (_ts2Val q) (_val2Ts q) b (_thread_joinable q) (_cv_notified q).
Definition set_thread_joinable (b : bool) (q : TimedEventQueue) :=
  mkQueue (_ts2Val q) (_val2Ts q) (_exit q) b (_cv_notified q).

(** [_cv.notify_one()] *)
Definition notify_one (q : TimedEventQueue) :=
  mkQueue (_ts2Val q) (_val2Ts q) (_exit q) (_thread_joinable q)
          (S (_cv_notified q)).

(** The members as default-initialised, before the constructor body. *)
Definition members_init : TimedEventQueue := mkQueue ∅ ∅ false false 0.

Definition addEvent (timestamp : Z) (value : T) (q : TimedEventQueue)
  : TimedEventQueue :=
  let q := set_ts2Val (emplace timestamp value (_ts2Val q)) q in
  let q := set_val2Ts (emplace value timestamp (_val2Ts q)) q in
  notify_one q.

(** [removeEvent(const T& value)] *)
Definition removeEvent_value (value : T) (q : TimedEventQueue)
  : TimedEventQueue :=
  match _val2Ts q !! value with
  | Some itr_second =>
      let q := set_ts2Val (erase itr_second (_ts2Val q)) q in
      set_val2Ts (erase value (_val2Ts q)) q
  | None => q
  end.

(** [removeEvent(const TIMESTAMP& timestamp)] *)
Definition removeEvent_timestamp (timestamp : Z) (q : TimedEventQueue)
  : TimedEventQueue :=
  match _ts2Val q !! timestamp with
  | Some itr_second =>
      let q := set_val2Ts (erase itr_second (_val2Ts q)) q in
      set_ts2Val (erase timestamp (_ts2Val q)) q
  | None => q
  end.

(** [updateValue]; [None] is the undefined behaviour of [nodeHandler.key()]
    on the empty handle that [extract] returns for a missing key. *)
Definition updateValue (timestamp : Z) (value : T) (q : TimedEventQueue)
  : option TimedEventQueue :=
  match _ts2Val q !! timestamp with
  | Some itr_second =>
      match extract itr_second (_val2Ts q) with
      | (Some nodeHandler, rest) =>
          let nodeHandler := (value, nodeHandler.2) in
          let q := set_val2Ts (insert_node nodeHandler rest) q in
          let q := set_ts2Val (<[timestamp := value]> (_ts2Val q)) q in
          Some (notify_one q)
      | (None, _) => None
      end
  | None => Some (notify_one q)
  end.

(** [updateTimestamp], with the same undefined case. *)
Definition updateTimestamp (timestamp : Z) (value : T) (q : TimedEventQueue)
  : option TimedEventQueue :=
  match _val2Ts q !! value with
  | Some itr_second =>
      match extract itr_second (_ts2Val q) with
      | (Some nodeHandler, rest) =>
          let nodeHandler := (timestamp, nodeHandler.2) in
          let q := set_ts2Val (insert_node nodeHandler rest) q in
          let q := set_val2Ts (<[value := timestamp]> (_val2Ts q)) q in
          Some (notify_one q)
      | (None, _) => None
      end
  | None => Some (notify_one q)
  end.

(** [stop]: [join] returns once the worker has left [run], after which the
    thread is no longer joinable. *)
Definition stop (q : TimedEventQueue) : TimedEventQueue :=
  if _thread_joinable q then
    let q := set_exit true q in
    let q := notify_one q in
    set_thread_joinable false q
  else q.

(** The constructor, run when the clock reads [now]. *)
Definition TimedEventQueue_ctor (now : Z) : TimedEventQueue :=
  let dummy_timestamp := CENTENNIAL now in
  let q := addEvent dummy_timestamp T_default members_init in
  set_thread_joinable true q.

(** *** The worker thread *)

(** One call of the virtual [onTimestampExpire]: its two arguments and the
    object it is invoked on, as it is at the call. *)
Record invocation := mkInvocation {
  inv_timestamp : Z;
  inv_value : T;
  inv_this : TimedEventQueue
}.

Inductive outcome :=
| Done (q : TimedEventQueue) (calls : list invocation)
| Undefined
| OutOfFuel.

(** The inner [while] of [run] with [current_time] fixed.  Dereferencing
    [begin()] of an empty map is undefined. *)
Fixpoint drain (fuel : nat) (current_time : Z) (q : TimedEventQueue)
    (calls : list invocation) : outcome :=
  match fuel with
  | O => OutOfFuel
  | S fuel =>
      match begin (_ts2Val q) with
      | None => Undefined
      | Some (first, second) =>
          if first <=? current_time then
            let calls := calls ++ [mkInvocation first second q] in
            let q := set_val2Ts (erase second (_val2Ts q)) q in
            let q := set_ts2Val (erase first (_ts2Val q)) q in
            drain fuel current_time q calls
          else Done q calls
      end
  end.

(** Every round of the inner loop erases one element of [_ts2Val]. *)
Definition drain_fuel (q : TimedEventQueue) : nat := S (size (_ts2Val q)).

(** One round of the outer [while] of [run], the wait ending when the clock
    reads [current_time]. *)
Definition run_iteration (current_time : Z) (q : TimedEventQueue) : outcome :=
  if _exit q then Done q []
  else
    match begin (_ts2Val q) with
    | None => Undefined
    | Some _ =>
        if _exit q then Done q []
        else drain (drain_fuel q) current_time q []
    end.

(** *** Sequences of calls *)

Inductive call :=
| AddEvent (timestamp : Z) (value : T)
| RemoveEventValue (value : T)
| RemoveEventTimestamp (timestamp : Z)
| UpdateValue (timestamp : Z) (value : T)
| UpdateTimestamp (timestamp : Z) (value : T).

Definition exec (c : call) (q : TimedEventQueue) : option TimedEventQueue :=
  match c with
  | AddEvent ts v => Some (addEvent ts v q)
  | RemoveEventValue v => Some (removeEvent_value v q)
  | RemoveEventTimestamp ts => Some (removeEvent_timestamp ts q)
  | UpdateValue ts v => updateValue ts v q
  | UpdateTimestamp ts v => updateTimestamp ts v q
  end.

Fixpoint exec_all (cs : list call) (q : TimedEventQueue)
  : option TimedEventQueue :=
  match cs with
  | [] => Some q
  | c :: cs =>
      match exec c q with
      | Some q => exec_all cs q
      | None => None
      end
  end.

(** Caller threads and the worker interleaved: a caller's call, or the
    worker waking up when the clock reads [current_time]. *)
Inductive action :=
| Caller (c : call)
| Worker (current_time : Z).

Definition act (a : action) (q : TimedEventQueue) : option TimedEventQueue :=
  match a with
  | Caller c => exec c q
  | Worker current_time =>
      match run_iteration current_time q with
      | Done q _ => Some q
      | _ => None
      end
  end.

Fixpoint act_all (l : list action) (q : TimedEventQueue)
  : option TimedEventQueue :=
  match l with
  | [] => Some q
  | a :: l =>
      match act a q with
      | Some q => act_all l q
      | None => None
      end
  end.

(** *** Predicates of the specification *)

(** The two maps describe the same set of pairs. *)
Definition bijective (q : TimedEventQueue) : Prop :=
  ∀ ts v, _ts2Val q !! ts = Some v ↔ _val2Ts q !! v = Some ts.

(** What a call submits for storing: [addEvent] both arguments,
    [updateValue] the new value, [updateTimestamp] the new timestamp. *)
Definition submitted_timestamps (c : call) : list Z :=
  match c with
  | AddEvent ts _ | UpdateTimestamp ts _ => [ts]
  | _ => []
  end.

Definition submitted_values (c : call) : list T :=
  match c with
  | AddEvent _ v | UpdateValue _ v => [v]
  | _ => []
  end.

(** [addEvent] for each pair of a list, first to last. *)
Definition add_all (order : list (Z * T)) (q : TimedEventQueue)
  : TimedEventQueue :=
  foldl (λ q e, addEvent e.1 e.2 q) q order.

(** The arguments of the handler's calls, in the order of the calls. *)
Definition delivered (calls : list invocation) : list (Z * T) :=
  (λ i, (inv_timestamp i, inv_value i)) <$> calls.

(** Strictly ascending timestamps. *)
Definition by_timestamp : relation (Z * T) := λ x y, x.1 < y.1.

(** Some stored event is not due yet when the clock reads [now]. *)
Definition has_pending (now : Z) (q : TimedEventQueue) : Prop :=
  ∃ ts v, _ts2Val q !! ts = Some v ∧ now < ts.

(** The dummy event of the constructor, at timestamp [dummy], is in both
    maps, and is the only event with its value or its timestamp. *)
Definition sentinel_kept (dummy : Z) (q : TimedEventQueue) : Prop :=
  _ts2Val q !! dummy = Some T_default ∧
  _val2Ts q !! T_default = Some dummy ∧
  (∀ ts, _ts2Val q !! ts = Some T_default → ts = dummy) ∧
  (∀ v, _val2Ts q !! v = Some dummy → v = T_default).

(** A call that passes neither [T()] nor the dummy timestamp. *)
Definition call_avoids_sentinel (dummy : Z) (c : call) : Prop :=
  match c with
  | AddEvent ts v | UpdateValue ts v | UpdateTimestamp ts v =>
      ts ≠ dummy ∧ v ≠ T_default
  | RemoveEventValue v => v ≠ T_default
  | RemoveEventTimestamp ts => ts ≠ dummy
  end.

(** The same for an action; the worker wakes before the dummy is due. *)
Definition avoids_sentinel (dummy : Z) (a : action) : Prop :=
  match a with
  | Caller c => call_avoids_sentinel dummy c
  | Worker current_time => current_time < dummy
  end.

End queue.

Arguments TimedEventQueue T {_ _}.
Arguments invocation T {_ _}.
Arguments outcome T {_ _}.
Arguments call : clear implicits.
Arguments action : clear implicits.

(** ** The demo program, [MyTimedEventQueue : TimedEventQueue<int>] *)

(** [std::chrono::seconds(s)] in ticks. *)
Definition seconds (s : Z) : Z := s * 1000000000.

(** The object of [main], constructed when the clock reads [start];
    [int()] is [0]. *)
Definition MyTimedEventQueue (start : Z) : TimedEventQueue Z :=
  TimedEventQueue_ctor 0 start.

(** The calls of [main] before it sleeps, [now] being its clock reading. *)
Definition main_calls (now : Z) : list (call Z) :=
  [ AddEvent (now + seconds 3) 1;
    AddEvent (now + seconds 1) 2;
    AddEvent (now + seconds 2) 3;
    AddEvent (now + seconds 4) 4;
    RemoveEventValue 2;
    RemoveEventTimestamp (now + seconds 2);
    UpdateValue (now + seconds 4) 5;
    UpdateTimestamp (now + seconds 10) 1 ].

(** A small object to try the member functions on: two events next to the
    dummy one. *)
Definition two_events : TimedEventQueue Z :=
  addEvent 2 20 (addEvent 1 10 (MyTimedEventQueue 0)).

(** ** The rest of the object's life *)

Section lifetime.
Context {T : Type} `{Countable T}.

(** [~TimedEventQueue()] *)
Definition TimedEventQueue_dtor (q : TimedEventQueue T) : TimedEventQueue T :=
  stop q.

(** The calls whose body reaches [_cv.notify_one()]. *)
Definition notifies (c : call T) : bool :=
  match c with
  | RemoveEventValue _ | RemoveEventTimestamp _ => false
  | AddEvent _ _ | UpdateValue _ _ | UpdateTimestamp _ _ => true
  end.

(** How many calls of a list reach it. *)
Fixpoint notifications (cs : list (call T)) : nat :=
  match cs with
  | [] => 0
  | c :: cs => (if notifies c then 1 else 0) + notifications cs
  end.

(** [act] and [act_all] with the calls of the handler kept, oldest first. *)
Definition act_calls (a : action T) (q : TimedEventQueue T)
  : option (TimedEventQueue T * list (invocation T)) :=
  match a with
  | Caller c =>
      match exec c q with
      | Some q => Some (q, [])
      | None => None
      end
  | Worker current_time =>
      match run_iteration current_time q with
      | Done q calls => Some (q, calls)
      | _ => None
      end
  end.

Fixpoint act_all_calls (l : list (action T)) (q : TimedEventQueue T)
  : option (TimedEventQueue T * list (invocation T)) :=
  match l with
  | [] => Some (q, [])
  | a :: l =>
      match act_calls a q with
      | Some (q, calls) =>
          match act_all_calls l q with
          | Some (q, later) => Some (q, calls ++ later)
          | None => None
          end
      | None => None
      end
  end.
End lifetime.

(** * Properties *)

(** ** [begin] is the least element *)

Section begin_facts.
Context {A : Type}.
Implicit Types (m : gmap Z A) (x y : Z * A) (l : list (Z * A)).

Lemma foldr_earlier_elem x l : foldr earlier x l ∈ x :: l.
Proof.
  induction l as [|y l IH]; simpl.
  - apply list_elem_of_here.
  - unfold earlier at 1. destruct (_ <=? _).
    + apply list_elem_of_further, list_elem_of_here.
    + apply elem_of_cons in IH as [->|IH].
      * apply list_elem_of_here.
      * by do 2 apply list_elem_of_further.
Qed.

Lemma foldr_earlier_least x l y :
  y ∈ x :: l → (foldr earlier x l).1 ≤ y.1.
Proof.
  induction l as [|z l IH]; simpl.
  - intros ->%list_elem_of_singleton. lia.
  - intros Hy. unfold earlier at 1.
    destruct (Z.leb_spec z.1 (foldr earlier x l).1) as [Hle|Hlt].
    + apply elem_of_cons in Hy as [->|Hy].
      * etrans; [exact Hle|]. apply IH, list_elem_of_here.
      * apply elem_of_cons in Hy as [->|Hy]; [lia|].
        etrans; [exact Hle|]. by apply IH, list_elem_of_further.
    + apply elem_of_cons in Hy as [->|Hy].
      * apply IH, list_elem_of_here.
      * apply elem_of_cons in Hy as [->|Hy]; [lia|].
        by apply IH, list_elem_of_further.
Qed.

Lemma begin_None m : begin m = None ↔ m = ∅.
Proof.
  unfold begin. rewrite <- (map_to_list_empty_iff m).
  destruct (map_to_list m); split; intros; done.
Qed.

Lemma begin_lookup m ts a : begin m = Some (ts, a) → m !! ts = Some a.
Proof.
  unfold begin. destruct (map_to_list m) as [|x l] eqn:E; [done|].
  intros [= Hf]. apply elem_of_map_to_list. rewrite E, <- Hf.
  apply foldr_earlier_elem.
Qed.

Lemma begin_least m ts a ts' a' :
  begin m = Some (ts, a) → m !! ts' = Some a' → ts ≤ ts'.
Proof.
  unfold begin. destruct (map_to_list m) as [|x l] eqn:E; [done|].
  intros [= Hf] Hin%elem_of_map_to_list. rewrite E in Hin.
  apply (foldr_earlier_least x l) in Hin. by rewrite Hf in Hin.
Qed.

Lemma begin_is_Some m ts a : m !! ts = Some a → is_Some (begin m).
Proof.
  intros Hm. destruct (begin m) eqn:E; [eauto|].
  apply begin_None in E. by rewrite E, lookup_empty in Hm.
Qed.

Lemma begin_unique m ts a :
  m !! ts = Some a → (∀ ts' a', m !! ts' = Some a' → ts ≤ ts') →
  begin m = Some (ts, a).
Proof.
  intros Hm Hleast. destruct (begin_is_Some m ts a Hm) as [[ts' a'] E].
  pose proof (begin_lookup _ _ _ E) as Hm'.
  pose proof (begin_least _ _ _ _ _ E Hm) as Hle.
  pose proof (Hleast _ _ Hm') as Hge.
  assert (ts' = ts) as -> by lia. by rewrite E, Hm' in *; simplify_eq.
Qed.
End begin_facts.

(** ** The member functions, one at a time *)

Ltac unfold_setters :=
  unfold notify_one, set_ts2Val, set_val2Ts, set_exit, set_thread_joinable
    in *; simpl in *.

Section member_functions.
Context {T : Type} `{Countable T}.
Implicit Types (q : TimedEventQueue T) (ts : Z) (v : T).

Lemma emplace_taken {K A} `{Countable K} (k : K) (a : A) (m : gmap K A) :
  is_Some (m !! k) → emplace k a m = m.
Proof. intros [a' Hk]. unfold emplace. by rewrite Hk. Qed.

Lemma emplace_free {K A} `{Countable K} (k : K) (a : A) (m : gmap K A) :
  m !! k = None → emplace k a m = <[k := a]> m.
Proof. intros Hk. unfold emplace. by rewrite Hk. Qed.

Lemma addEvent_ts2Val ts v q :
  _ts2Val (addEvent ts v q) = emplace ts v (_ts2Val q).
Proof. reflexivity. Qed.

Lemma addEvent_val2Ts ts v q :
  _val2Ts (addEvent ts v q) = emplace v ts (_val2Ts q).
Proof. reflexivity. Qed.

(** C10. [addEvent] never overwrites a binding of either map: a timestamp
    that is already a key of [_ts2Val] leaves [_ts2Val] as it is, a value
    that is already a key of [_val2Ts] leaves [_val2Ts] as it is, and each
    half is decided on its own, the free half being inserted. *)
Theorem addEvent_never_overwrites ts v q :
  (is_Some (_ts2Val q !! ts) → _ts2Val (addEvent ts v q) = _ts2Val q) ∧
  (is_Some (_val2Ts q !! v) → _val2Ts (addEvent ts v q) = _val2Ts q) ∧
  (_ts2Val q !! ts = None →
     _ts2Val (addEvent ts v q) = <[ts := v]> (_ts2Val q)) ∧
  (_val2Ts q !! v = None →
     _val2Ts (addEvent ts v q) = <[v := ts]> (_val2Ts q)).
Proof.
  rewrite addEvent_ts2Val, addEvent_val2Ts.
  repeat split; auto using @emplace_taken, @emplace_free.
Qed.

(** *** [removeEvent] *)

Lemma removeEvent_value_absent v q :
  _val2Ts q !! v = None → removeEvent_value v q = q.
Proof. intros Hv. unfold removeEvent_value. by rewrite Hv. Qed.

Lemma removeEvent_timestamp_absent ts q :
  _ts2Val q !! ts = None → removeEvent_timestamp ts q = q.
Proof. intros Hts. unfold removeEvent_timestamp. by rewrite Hts. Qed.

Lemma removeEvent_value_gone v q : _val2Ts (removeEvent_value v q) !! v = None.
Proof.
  unfold removeEvent_value. destruct (_val2Ts q !! v) eqn:E; [|done].
  unfold_setters. apply lookup_delete_eq.
Qed.

Lemma removeEvent_timestamp_gone ts q :
  _ts2Val (removeEvent_timestamp ts q) !! ts = None.
Proof.
  unfold removeEvent_timestamp. destruct (_ts2Val q !! ts) eqn:E; [|done].
  unfold_setters. apply lookup_delete_eq.
Qed.

(** C8. [removeEvent] with a key that is absent from the map it is looked
    up in returns the object as it was, both overloads are defined on every
    object, and a second call with the same argument changes nothing. *)
Theorem removeEvent_idempotent_total q :
  (∀ v, _val2Ts q !! v = None → removeEvent_value v q = q) ∧
  (∀ ts, _ts2Val q !! ts = None → removeEvent_timestamp ts q = q) ∧
  (∀ v, exec (RemoveEventValue v) q = Some (removeEvent_value v q)) ∧
  (∀ ts, exec (RemoveEventTimestamp ts) q
         = Some (removeEvent_timestamp ts q)) ∧
  (∀ v, removeEvent_value v (removeEvent_value v q)
        = removeEvent_value v q) ∧
  (∀ ts, removeEvent_timestamp ts (removeEvent_timestamp ts q)
         = removeEvent_timestamp ts q).
Proof.
  split_and!; try done.
  - intros v. apply removeEvent_value_absent.
  - intros ts. apply removeEvent_timestamp_absent.
  - intros v. apply removeEvent_value_absent, removeEvent_value_gone.
  - intros ts. apply removeEvent_timestamp_absent, removeEvent_timestamp_gone.
Qed.

(** C4. Neither overload of [removeEvent] calls [notify_one]: the count
    of notifications is the same before and after, whether or not an
    event was erased. *)
Theorem removeEvent_never_notifies q :
  (∀ v, _cv_notified (removeEvent_value v q) = _cv_notified q) ∧
  (∀ ts, _cv_notified (removeEvent_timestamp ts q) = _cv_notified q).
Proof.
  split; intros k.
  - unfold removeEvent_value. by destruct (_val2Ts q !! k).
  - unfold removeEvent_timestamp. by destruct (_ts2Val q !! k).
Qed.

(** The other three mutators notify once on every path. *)
Lemma addEvent_notifies ts v q :
  _cv_notified (addEvent ts v q) = S (_cv_notified q).
Proof. reflexivity. Qed.

Lemma updateValue_notifies ts v q q' :
  updateValue ts v q = Some q' → _cv_notified q' = S (_cv_notified q).
Proof.
  unfold updateValue, extract. destruct (_ts2Val q !! ts) as [old|].
  - destruct (_val2Ts q !! old); simpl; [|done]. by intros [= <-].
  - by intros [= <-].
Qed.

Lemma updateTimestamp_notifies ts v q q' :
  updateTimestamp ts v q = Some q' → _cv_notified q' = S (_cv_notified q).
Proof.
  unfold updateTimestamp, extract. destruct (_val2Ts q !! v) as [old|].
  - destruct (_ts2Val q !! old); simpl; [|done]. by intros [= <-].
  - by intros [= <-].
Qed.

(** *** [stop] *)

(** C9. [stop] on a stopped object (its thread not joinable) returns the
    object unchanged; after any [stop] the thread is not joinable, so a
    second [stop] changes nothing. *)
Theorem stop_idempotent q :
  (_thread_joinable q = false → stop q = q) ∧
  _thread_joinable (stop q) = false ∧
  stop (stop q) = stop q.
Proof.
  unfold stop. destruct (_thread_joinable q) eqn:E; simpl;
    rewrite ?E; repeat split; done.
Qed.
End member_functions.

(** ** The bijection between the two maps *)

(** Closes a goal about lookups in both maps of a bijective [q]: every
    binding known of one map is mirrored into the other. *)
Ltac mirror Hb :=
  repeat match goal with
  | E : _ts2Val ?q !! ?a = Some ?b |- _ =>
      lazymatch goal with
      | _ : _val2Ts q !! b = Some a |- _ => fail
      | _ => pose proof (proj1 (Hb a b) E)
      end
  | E : _val2Ts ?q !! ?b = Some ?a |- _ =>
      lazymatch goal with
      | _ : _ts2Val q !! a = Some b |- _ => fail
      | _ => pose proof (proj2 (Hb a b) E)
      end
  end.

Ltac bijection_cases Hb :=
  repeat case_decide; subst;
  split; intros ?; mirror Hb; congruence.

Section bijection.
Context {T : Type} `{Countable T}.
Implicit Types (q : TimedEventQueue T) (ts : Z) (v : T).

Lemma bijective_members_init : bijective (@members_init T _ _).
Proof. intros ts v. simpl. by rewrite !lookup_empty. Qed.

Lemma bijective_fields q q' :
  _ts2Val q' = _ts2Val q → _val2Ts q' = _val2Ts q →
  bijective q → bijective q'.
Proof. unfold bijective. by intros -> ->. Qed.

Lemma addEvent_bijective ts v q :
  bijective q → _ts2Val q !! ts = None → _val2Ts q !! v = None →
  bijective (addEvent ts v q).
Proof.
  intros Hb Hts Hv ts' v'.
  rewrite addEvent_ts2Val, addEvent_val2Ts, !emplace_free by done.
  rewrite !lookup_insert. bijection_cases Hb.
Qed.

Lemma removeEvent_value_bijective v q :
  bijective q → bijective (removeEvent_value v q).
Proof.
  intros Hb. unfold removeEvent_value.
  destruct (_val2Ts q !! v) as [old|] eqn:E; [|done].
  intros ts' v'. unfold_setters. unfold erase. rewrite !lookup_delete.
  bijection_cases Hb.
Qed.

Lemma removeEvent_timestamp_bijective ts q :
  bijective q → bijective (removeEvent_timestamp ts q).
Proof.
  intros Hb. unfold removeEvent_timestamp.
  destruct (_ts2Val q !! ts) as [old|] eqn:E; [|done].
  intros ts' v'. unfold_setters. unfold erase. rewrite !lookup_delete.
  bijection_cases Hb.
Qed.

Lemma updateValue_absent ts v q :
  _ts2Val q !! ts = None → updateValue ts v q = Some (notify_one q).
Proof. intros Hts. unfold updateValue. by rewrite Hts. Qed.

Lemma updateTimestamp_absent ts v q :
  _val2Ts q !! v = None → updateTimestamp ts v q = Some (notify_one q).
Proof. intros Hv. unfold updateTimestamp. by rewrite Hv. Qed.

Lemma updateValue_present ts v old q :
  _ts2Val q !! ts = Some old → bijective q →
  (∀ ts', _val2Ts q !! v = Some ts' → ts' = ts) →
  ∃ q', updateValue ts v q = Some q' ∧
        _ts2Val q' = <[ts := v]> (_ts2Val q) ∧
        _val2Ts q' = <[v := ts]> (delete old (_val2Ts q)) ∧
        bijective q'.
Proof.
  intros Hts Hb Hfree. pose proof (proj1 (Hb _ _) Hts) as Hold.
  assert (v = old ∨ _val2Ts q !! v = None) as Hv.
  { destruct (_val2Ts q !! v) as [ts'|] eqn:E; [left|by right].
    pose proof (Hfree _ eq_refl) as ->. apply Hb in E. congruence. }
  unfold updateValue, extract, insert_node. rewrite Hts, Hold. simpl.
  replace (delete old (_val2Ts q) !! v) with (@None Z)
    by (rewrite lookup_delete; case_decide; destruct Hv; congruence).
  eexists. split; [done|]. unfold_setters. split_and!; try done.
  intros ts' v'. simpl. rewrite !lookup_insert, lookup_delete.
  destruct Hv; bijection_cases Hb.
Qed.

Lemma updateTimestamp_present ts v old q :
  _val2Ts q !! v = Some old → bijective q →
  (∀ v', _ts2Val q !! ts = Some v' → v' = v) →
  ∃ q', updateTimestamp ts v q = Some q' ∧
        _ts2Val q' = <[ts := v]> (delete old (_ts2Val q)) ∧
        _val2Ts q' = <[v := ts]> (_val2Ts q) ∧
        bijective q'.
Proof.
  intros Hv Hb Hfree. pose proof (proj2 (Hb _ _) Hv) as Hold.
  assert (ts = old ∨ _ts2Val q !! ts = None) as Hts.
  { destruct (_ts2Val q !! ts) as [v'|] eqn:E; [left|by right].
    pose proof (Hfree _ eq_refl) as ->. apply Hb in E. congruence. }
  unfold updateTimestamp, extract, insert_node. rewrite Hv, Hold. simpl.
  replace (delete old (_ts2Val q) !! ts) with (@None T)
    by (rewrite lookup_delete; case_decide; destruct Hts; congruence).
  eexists. split; [done|]. unfold_setters. split_and!; try done.
  intros ts' v'. simpl. rewrite !lookup_insert, lookup_delete.
  destruct Hts; bijection_cases Hb.
Qed.
End bijection.

(** ** [updateValue] and [updateTimestamp] *)

Section updates.
Context {T : Type} `{Countable T}.
Implicit Types (q : TimedEventQueue T) (ts : Z) (v : T).

(** C7 (amended). [updateValue] leaves both maps as they are when the
    timestamp is not a key of [_ts2Val].  When it is, the object is in
    bijection and the new value is not the value of an event stored at
    another timestamp, the timestamp keeps its slot and now holds the new
    value, [_val2Ts] loses the old value and maps the new one to the
    timestamp, and the object is in bijection again. *)
Theorem updateValue_spec ts v q :
  (_ts2Val q !! ts = None → updateValue ts v q = Some (notify_one q)) ∧
  (∀ old, _ts2Val q !! ts = Some old → bijective q →
     (∀ ts', _val2Ts q !! v = Some ts' → ts' = ts) →
     ∃ q', updateValue ts v q = Some q' ∧
           _ts2Val q' = <[ts := v]> (_ts2Val q) ∧
           _val2Ts q' = <[v := ts]> (delete old (_val2Ts q)) ∧
           bijective q').
Proof.
  split; [apply updateValue_absent|].
  intros old. apply updateValue_present.
Qed.

(** C6 (amended). [updateTimestamp] leaves both maps as they are when the
    value is not a key of [_val2Ts].  When it is, the object is in
    bijection and the new timestamp is not the timestamp of an event
    stored with another value, the pair leaves its old slot of [_ts2Val]
    and sits at the new timestamp, in its place in the order of the map,
    [_val2Ts] maps the value to the new timestamp, and the object is in
    bijection again. *)
Theorem updateTimestamp_spec ts v q :
  (_val2Ts q !! v = None → updateTimestamp ts v q = Some (notify_one q)) ∧
  (∀ old, _val2Ts q !! v = Some old → bijective q →
     (∀ v', _ts2Val q !! ts = Some v' → v' = v) →
     ∃ q', updateTimestamp ts v q = Some q' ∧
           _ts2Val q' = <[ts := v]> (delete old (_ts2Val q)) ∧
           _val2Ts q' = <[v := ts]> (_val2Ts q) ∧
           bijective q' ∧
           ∃ first second,
             begin (_ts2Val q') = Some (first, second) ∧ first ≤ ts).
Proof.
  split; [apply updateTimestamp_absent|].
  intros old Hv Hb Hfree.
  destruct (updateTimestamp_present ts v old q Hv Hb Hfree)
    as (q' & Hq' & Hts' & Hv' & Hb').
  exists q'. split_and!; try done.
  assert (_ts2Val q' !! ts = Some v) as Hin
    by (rewrite Hts'; apply lookup_insert_eq).
  destruct (begin_is_Some _ _ _ Hin) as [[first second] E].
  exists first, second. split; [done|]. by eapply begin_least.
Qed.
End updates.

(** ** Sequences of calls keep the bijection *)

Section sequences.
Context {T : Type} `{Countable T}.
Implicit Types (q : TimedEventQueue T) (ts : Z) (v : T) (c : call T).

(** One call with fresh submitted keys keeps the bijection and stores no
    key but the submitted ones. *)
Lemma exec_bijective c q :
  bijective q →
  (∀ ts, ts ∈ submitted_timestamps c → _ts2Val q !! ts = None) →
  (∀ v, v ∈ submitted_values c → _val2Ts q !! v = None) →
  ∃ q', exec c q = Some q' ∧ bijective q' ∧
    (∀ ts, _ts2Val q !! ts = None → ts ∉ submitted_timestamps c →
           _ts2Val q' !! ts = None) ∧
    (∀ v, _val2Ts q !! v = None → v ∉ submitted_values c →
          _val2Ts q' !! v = None).
Proof.
  intros Hb Hts Hv. destruct c as [ts v|v|ts|ts v|ts v]; simpl in *.
  - assert (_ts2Val q !! ts = None) as Hts' by apply Hts, list_elem_of_here.
    assert (_val2Ts q !! v = None) as Hv' by apply Hv, list_elem_of_here.
    eexists. split; [done|]. split; [by apply addEvent_bijective|].
    rewrite addEvent_ts2Val, addEvent_val2Ts, !emplace_free by done.
    split; intros k Hk Hne; rewrite lookup_insert_ne; try done;
      intros ->; apply Hne, list_elem_of_here.
  - eexists. split; [done|]. split; [by apply removeEvent_value_bijective|].
    unfold removeEvent_value. destruct (_val2Ts q !! v); [|done].
    unfold_setters. unfold erase.
    split; intros k Hk _; rewrite lookup_delete; by case_decide.
  - eexists. split; [done|].
    split; [by apply removeEvent_timestamp_bijective|].
    unfold removeEvent_timestamp. destruct (_ts2Val q !! ts); [|done].
    unfold_setters. unfold erase.
    split; intros k Hk _; rewrite lookup_delete; by case_decide.
  - assert (_val2Ts q !! v = None) as Hv' by apply Hv, list_elem_of_here.
    destruct (_ts2Val q !! ts) as [old|] eqn:E.
    + destruct (updateValue_present ts v old q E Hb)
        as (q' & Hq' & Hts' & Hvs' & Hb'); [congruence|].
      exists q'. rewrite Hts', Hvs'. split_and!; try done.
      * intros k Hk _. rewrite lookup_insert_ne; [done|congruence].
      * intros k Hk Hne. rewrite lookup_insert_ne, lookup_delete.
        -- by case_decide.
        -- intros ->. apply Hne, list_elem_of_here.
    + rewrite updateValue_absent by done. eexists. split; [done|].
      split; [by eapply bijective_fields|]. by split.
  - assert (_ts2Val q !! ts = None) as Hts' by apply Hts, list_elem_of_here.
    destruct (_val2Ts q !! v) as [old|] eqn:E.
    + destruct (updateTimestamp_present ts v old q E Hb)
        as (q' & Hq' & Hts'' & Hvs' & Hb'); [congruence|].
      exists q'. rewrite Hts'', Hvs'. split_and!; try done.
      * intros k Hk Hne. rewrite lookup_insert_ne, lookup_delete.
        -- by case_decide.
        -- intros ->. apply Hne, list_elem_of_here.
      * intros k Hk _. rewrite lookup_insert_ne; [done|congruence].
    + rewrite updateTimestamp_absent by done. eexists. split; [done|].
      split; [by eapply bijective_fields|]. by split.
Qed.

Lemma exec_all_bijective (cs : list (call T)) : ∀ q,
  bijective q →
  NoDup (cs ≫= submitted_timestamps) → NoDup (cs ≫= submitted_values) →
  (∀ ts, ts ∈ cs ≫= submitted_timestamps → _ts2Val q !! ts = None) →
  (∀ v, v ∈ cs ≫= submitted_values → _val2Ts q !! v = None) →
  ∃ q', exec_all cs q = Some q' ∧ bijective q'.
Proof.
  induction cs as [|c cs IH]; intros q Hb Hnt Hnv Hts Hv; simpl.
  - eauto.
  - simpl in Hnt, Hnv, Hts, Hv.
    apply NoDup_app in Hnt as (_ & Hdt & Hnt).
    apply NoDup_app in Hnv as (_ & Hdv & Hnv).
    destruct (exec_bijective c q Hb) as (q1 & -> & Hb1 & Hk1 & Hk2).
    { intros ts Hin. apply Hts, elem_of_app. by left. }
    { intros v Hin. apply Hv, elem_of_app. by left. }
    apply IH; try done.
    + intros ts Hin. apply Hk1.
      * apply Hts, elem_of_app. by right.
      * intros Hc. by apply (Hdt ts).
    + intros v Hin. apply Hk2.
      * apply Hv, elem_of_app. by right.
      * intros Hc. by apply (Hdv v).
Qed.

Lemma prefix_bind_NoDup {A B} (f : A → list B) (pre l : list A) :
  pre `prefix_of` l → NoDup (l ≫= f) →
  NoDup (pre ≫= f) ∧ ∀ x, x ∈ pre ≫= f → x ∈ l ≫= f.
Proof.
  intros [suf ->]. rewrite bind_app. intros (Hn & _ & _)%NoDup_app.
  split; [done|]. intros x Hx. apply elem_of_app. by left.
Qed.

(** C1. Take calls whose submitted timestamps are pairwise distinct, and
    not stored already, and whose submitted values are pairwise distinct,
    and not stored already, on an object in bijection (the members as
    initialised, the object as constructed, or any later one).  Then every
    call is defined and the object is in bijection after each of them. *)
Theorem bijection_invariant (cs : list (call T)) q :
  bijective q →
  NoDup (cs ≫= submitted_timestamps) → NoDup (cs ≫= submitted_values) →
  (∀ ts, ts ∈ cs ≫= submitted_timestamps → _ts2Val q !! ts = None) →
  (∀ v, v ∈ cs ≫= submitted_values → _val2Ts q !! v = None) →
  ∀ pre, pre `prefix_of` cs →
    ∃ q', exec_all pre q = Some q' ∧ bijective q'.
Proof.
  intros Hb Hnt Hnv Hts Hv pre Hpre.
  destruct (prefix_bind_NoDup submitted_timestamps pre cs Hpre Hnt)
    as [Hnt' Hsubt].
  destruct (prefix_bind_NoDup submitted_values pre cs Hpre Hnv)
    as [Hnv' Hsubv].
  apply exec_all_bijective; auto.
Qed.
End sequences.

(** ** The worker's inner loop *)

Section worker.
Context {T : Type} `{Countable T}.
Implicit Types (q : TimedEventQueue T) (ts : Z) (v : T).
Implicit Types (calls acc : list (invocation T)).

Lemma has_pending_begin now q :
  has_pending now q → is_Some (begin (_ts2Val q)).
Proof. intros (ts & v & Hq & _). by eapply begin_is_Some. Qed.

(** The fuel of [drain_fuel] never runs out: a round that goes on has erased
    an element of [_ts2Val]. *)
Lemma drain_fuel_enough now : ∀ fuel q acc,
  (size (_ts2Val q) < fuel)%nat → drain fuel now q acc ≠ OutOfFuel.
Proof.
  induction fuel as [|fuel IH]; intros q acc Hsize; [lia|]. simpl.
  destruct (begin (_ts2Val q)) as [[first second]|] eqn:E; [|done].
  destruct (first <=? now); [|done]. apply IH. simpl. unfold erase.
  pose proof (begin_lookup _ _ _ E) as Hfirst.
  rewrite map_size_delete_Some by eauto.
  assert (size (_ts2Val q) ≠ 0%nat); [|lia].
  intros Hz%map_size_empty_inv. by rewrite Hz, lookup_empty in Hfirst.
Qed.

(** With an event that is not due the loop ends before the map is empty,
    within the fuel of one round per stored event; what it did is read off
    the object it started from. *)
Lemma drain_spec now : ∀ fuel q acc,
  (size (_ts2Val q) < fuel)%nat → has_pending now q →
  ∃ q' calls,
    drain fuel now q acc = Done q' (acc ++ calls) ∧
    StronglySorted by_timestamp (delivered calls) ∧
    (∀ ts v, (ts, v) ∈ delivered calls ↔
             _ts2Val q !! ts = Some v ∧ ts ≤ now) ∧
    _ts2Val q' = filter (λ p, now < p.1) (_ts2Val q) ∧
    (∀ v, v ∉ (delivered calls).*2 → _val2Ts q' !! v = _val2Ts q !! v) ∧
    (∀ v, v ∈ (delivered calls).*2 → _val2Ts q' !! v = None) ∧
    Forall (λ i, _ts2Val (inv_this i) !! inv_timestamp i
                 = Some (inv_value i)) calls ∧
    (bijective q → bijective q' ∧ Forall (λ i, bijective (inv_this i)) calls) ∧
    _exit q' = _exit q ∧ _thread_joinable q' = _thread_joinable q ∧
    _cv_notified q' = _cv_notified q.
Proof.
  induction fuel as [|fuel IH]; intros q acc Hsize Hpend; [lia|].
  destruct (has_pending_begin _ _ Hpend) as [[first second] E].
  pose proof (begin_lookup _ _ _ E) as Hfirst.
  simpl. rewrite E. destruct (Z.leb_spec first now) as [Hdue|Hnot].
  - set (q2 := set_ts2Val _ _).
    assert (_ts2Val q2 = delete first (_ts2Val q)) as Hts2 by done.
    assert (_val2Ts q2 = delete second (_val2Ts q)) as Hv2 by done.
    destruct (IH q2 (acc ++ [mkInvocation first second q]))
      as (q' & calls & Hrun & Hsorted & Hmem & Hts & Hkeep & Hgone
          & Hthis & Hbij & He & Hj & Hn).
    { rewrite Hts2, map_size_delete_Some by eauto.
      assert (size (_ts2Val q) ≠ 0%nat); [|lia].
      intros Hz%map_size_empty_inv. by rewrite Hz, lookup_empty in Hfirst. }
    { destruct Hpend as (ts & v & Hq & Hlt). exists ts, v.
      rewrite Hts2, lookup_delete_ne by lia. done. }
    exists q', (mkInvocation first second q :: calls).
    rewrite Hrun, <- app_assoc. split; [done|]. simpl.
    assert (∀ ts v, (ts, v) ∈ delivered calls → first < ts) as Hlater.
    { intros ts v [Hin _]%Hmem. rewrite Hts2 in Hin.
      apply lookup_delete_Some in Hin as [Hne Hin].
      pose proof (begin_least _ _ _ _ _ E Hin). lia. }
    split_and!; try done.
    + constructor; [done|]. apply Forall_forall. intros [ts v] Hin.
      by apply (Hlater ts v).
    + intros ts v. rewrite elem_of_cons, Hmem, Hts2, lookup_delete_Some.
      split.
      * intros [[= -> ->]|[[??]?]]; done.
      * intros [Hin Hle]. destruct (decide (first = ts)) as [->|Hne].
        -- left. congruence.
        -- by right.
    + rewrite Hts, Hts2. apply map_filter_delete_not.
      intros y Hy. simpl. lia.
    + intros v Hv. apply not_elem_of_cons in Hv as [Hne Hv].
      rewrite Hkeep, Hv2, lookup_delete_ne; done.
    + intros v Hv. destruct (decide (v ∈ (delivered calls).*2)) as [Hin|Hout].
      * by apply Hgone.
      * apply elem_of_cons in Hv as [->|Hv]; [|done].
        rewrite Hkeep, Hv2 by done. apply lookup_delete_eq.
    + by constructor.
    + intros Hb. assert (bijective q2) as Hb2.
      { intros ts v. rewrite Hts2, Hv2, !lookup_delete.
        bijection_cases Hb. }
      destruct (Hbij Hb2). split; [done|]. by constructor.
  - exists q, []. rewrite app_nil_r. split_and!; try done.
    + constructor.
    + intros ts v. split; [by intros ?%elem_of_nil|].
      intros [Hin Hle]. pose proof (begin_least _ _ _ _ _ E Hin). lia.
    + symmetry. apply map_filter_id. intros ts v Hin. simpl.
      pose proof (begin_least _ _ _ _ _ E Hin). lia.
    + by intros v ?%elem_of_nil.
Qed.
End worker.

(** ** Delivery *)

Section delivery.
Context {T : Type} `{Countable T} (T_default : T).
Implicit Types (q : TimedEventQueue T) (ts : Z) (v : T).
Implicit Types (evs order : list (Z * T)).

Lemma by_timestamp_NoDup evs :
  StronglySorted by_timestamp evs → NoDup evs.*1.
Proof.
  induction 1 as [|e evs _ IH Hall]; csimpl; constructor; [|done].
  intros (e' & Heq & Hin)%list_elem_of_fmap.
  rewrite Forall_forall in Hall. specialize (Hall e' Hin).
  unfold by_timestamp in Hall. lia.
Qed.

Lemma by_timestamp_unique evs evs' :
  StronglySorted by_timestamp evs → StronglySorted by_timestamp evs' →
  (∀ e, e ∈ evs ↔ e ∈ evs') → evs = evs'.
Proof.
  intros Hs Hs' Hmem. apply (StronglySorted_unique_strong by_timestamp);
    try done.
  - unfold by_timestamp. intros; lia.
  - apply NoDup_Permutation; try done;
      eapply NoDup_fmap_1, by_timestamp_NoDup; done.
Qed.

Lemma add_all_cons e order q :
  add_all (e :: order) q = add_all order (addEvent e.1 e.2 q).
Proof. reflexivity. Qed.

Lemma add_all_exit order : ∀ q, _exit (add_all order q) = _exit q.
Proof.
  induction order as [|e order IH]; intros q; [done|].
  by rewrite add_all_cons, IH.
Qed.

(** With distinct timestamps, none stored yet, [_ts2Val] gains exactly the
    added pairs, whatever the order of the calls. *)
Lemma add_all_ts2Val order : ∀ q,
  NoDup order.*1 → (∀ e, e ∈ order → _ts2Val q !! e.1 = None) →
  ∀ ts v, _ts2Val (add_all order q) !! ts = Some v ↔
          (ts, v) ∈ order ∨ _ts2Val q !! ts = Some v.
Proof.
  induction order as [|[ts0 v0] order IH]; intros q Hnd Hfree ts v.
  - split; [by right|]. by intros [?%elem_of_nil|?].
  - apply NoDup_cons in Hnd as [Hnotin Hnd]. simpl in Hnotin.
    assert (_ts2Val q !! ts0 = None) as Hts0
      by apply (Hfree (ts0, v0)), list_elem_of_here.
    rewrite add_all_cons, IH; clear IH; try done.
    + rewrite addEvent_ts2Val. simpl.
      rewrite emplace_free, lookup_insert, elem_of_cons by done.
      case_decide; subst; split.
      * intros [Hin|[= ->]]; [|by left; left].
        destruct Hnotin. apply list_elem_of_fmap. by exists (ts, v).
      * intros [[[= ->]|Hin]|E]; [by right| |congruence].
        destruct Hnotin. apply list_elem_of_fmap. by exists (ts, v).
      * intros [Hin|E]; [left|]; by right.
      * intros [[[= -> ->]|Hin]|E]; [done|by left|by right].
    + intros e He. rewrite addEvent_ts2Val. simpl.
      rewrite emplace_free by done. rewrite lookup_insert_ne.
      * by apply Hfree, list_elem_of_further.
      * intros ->. apply Hnotin, list_elem_of_fmap. eauto.
Qed.

Lemma run_iteration_drain now q :
  _exit q = false → is_Some (begin (_ts2Val q)) →
  run_iteration now q = drain (drain_fuel q) now q [].
Proof. intros He [p Hp]. unfold run_iteration. by rewrite He, Hp. Qed.

Lemma drain_has_pending now q :
  has_pending now q →
  ∃ q' calls,
    drain (drain_fuel q) now q [] = Done q' calls ∧
    StronglySorted by_timestamp (delivered calls) ∧
    (∀ ts v, (ts, v) ∈ delivered calls ↔
             _ts2Val q !! ts = Some v ∧ ts ≤ now) ∧
    _ts2Val q' = filter (λ p, now < p.1) (_ts2Val q) ∧
    (∀ v, v ∉ (delivered calls).*2 → _val2Ts q' !! v = _val2Ts q !! v) ∧
    (∀ v, v ∈ (delivered calls).*2 → _val2Ts q' !! v = None) ∧
    Forall (λ i, _ts2Val (inv_this i) !! inv_timestamp i
                 = Some (inv_value i)) calls ∧
    (bijective q → bijective q' ∧ Forall (λ i, bijective (inv_this i)) calls) ∧
    _exit q' = _exit q ∧ _thread_joinable q' = _thread_joinable q ∧
    _cv_notified q' = _cv_notified q.
Proof.
  intros Hpend.
  destruct (drain_spec now (drain_fuel q) q []) as (q' & calls & Hrun & Hrest);
    [unfold drain_fuel; lia|done|].
  exists q', calls. by split.
Qed.

(** C2. When some stored event is not due yet (the dummy event, if no
    other), the inner loop of [run] ends and has called the handler on
    exactly the stored pairs with a timestamp [<= now], once each, in
    strictly ascending order of timestamp; these pairs are gone from
    [_ts2Val], their values from [_val2Ts], and the earliest pair that is
    left is later than [now].  So events with timestamps
    [T1 < T2 < ... <= now], added to a new object in any order, are
    delivered in the order [T1, T2, ...]. *)
Theorem drain_delivers_due_in_order now :
  (∀ q, has_pending now q →
     ∃ q' calls,
       drain (drain_fuel q) now q [] = Done q' calls ∧
       StronglySorted by_timestamp (delivered calls) ∧
       (∀ ts v, (ts, v) ∈ delivered calls ↔
                _ts2Val q !! ts = Some v ∧ ts ≤ now) ∧
       _ts2Val q' = filter (λ p, now < p.1) (_ts2Val q) ∧
       (∀ v, v ∈ (delivered calls).*2 → _val2Ts q' !! v = None) ∧
       ∃ ts v, begin (_ts2Val q') = Some (ts, v) ∧ now < ts) ∧
  (∀ t0 evs order,
     StronglySorted by_timestamp evs → Forall (λ e, e.1 ≤ now) evs →
     now < CENTENNIAL t0 → order ≡ₚ evs →
     ∃ q' calls,
       run_iteration now (add_all order (TimedEventQueue_ctor T_default t0))
         = Done q' calls ∧
       delivered calls = evs).
Proof.
  split.
  - intros q Hpend.
    destruct (drain_has_pending now q Hpend)
      as (q' & calls & Hrun & Hsorted & Hmem & Hts & _ & Hgone & _).
    exists q', calls. split_and!; try done.
    destruct Hpend as (ts & v & Hin & Hlt).
    assert (_ts2Val q' !! ts = Some v) as Hin'
      by (rewrite Hts; by apply map_lookup_filter_Some).
    destruct (begin_is_Some _ _ _ Hin') as [[first second] E].
    exists first, second. split; [done|].
    apply begin_lookup in E. rewrite Hts in E.
    by apply map_lookup_filter_Some in E as [_ ?].
  - intros t0 evs order Hsorted Hdue Hfar Hperm.
    set (q0 := TimedEventQueue_ctor T_default t0).
    assert (∀ ts v, _ts2Val q0 !! ts = Some v ↔
                    ts = CENTENNIAL t0 ∧ v = T_default) as Hq0.
    { intros ts v. unfold q0, TimedEventQueue_ctor. simpl.
      unfold emplace. rewrite lookup_empty, lookup_insert_Some, lookup_empty.
      split; [intros [[<- <-]|[_ ?]]; done|intros [-> ->]; by left]. }
    rewrite Forall_forall in Hdue.
    assert (∀ ts v, _ts2Val (add_all order q0) !! ts = Some v ↔
                    (ts, v) ∈ order ∨ _ts2Val q0 !! ts = Some v) as Hadd.
    { apply add_all_ts2Val.
      - rewrite Hperm. by apply by_timestamp_NoDup.
      - intros e He. rewrite Hperm in He. apply Hdue in He.
        destruct (_ts2Val q0 !! e.1) eqn:E; [|done].
        apply Hq0 in E as [E _]. lia. }
    assert (has_pending now (add_all order q0)) as Hpend.
    { exists (CENTENNIAL t0), T_default. split; [|done].
      apply Hadd. right. by apply Hq0. }
    destruct (drain_has_pending now _ Hpend)
      as (q' & calls & Hrun & Hsorted' & Hmem & _).
    exists q', calls. split.
    + rewrite run_iteration_drain; [done| |by eapply has_pending_begin].
      by rewrite add_all_exit.
    + apply by_timestamp_unique; try done.
      intros [ts v]. rewrite Hmem, Hadd, Hq0, Hperm. split.
      * intros [[Hin|[-> _]] Hle]; [done|lia].
      * intros Hin. split; [by left|]. by apply (Hdue (ts, v)).
Qed.

(** C5 (amended). The loop calls the handler first and erases second: at
    each call the pair is still in [_ts2Val] of the object the handler is
    called on (and in [_val2Ts] too when the object was in bijection); it
    is out of both maps only when the loop has ended. *)
Theorem fire_delivers_then_removes now q :
  has_pending now q →
  ∃ q' calls,
    drain (drain_fuel q) now q [] = Done q' calls ∧
    ∀ i, i ∈ calls →
      _ts2Val (inv_this i) !! inv_timestamp i = Some (inv_value i) ∧
      (bijective q →
         _val2Ts (inv_this i) !! inv_value i = Some (inv_timestamp i)) ∧
      _ts2Val q' !! inv_timestamp i = None ∧
      _val2Ts q' !! inv_value i = None.
Proof.
  intros Hpend.
  destruct (drain_has_pending now q Hpend)
    as (q' & calls & Hrun & _ & Hmem & Hts & _ & Hgone & Hthis & Hbij & _).
  exists q', calls. split; [done|]. intros i Hi.
  rewrite Forall_forall in Hthis.
  assert ((inv_timestamp i, inv_value i) ∈ delivered calls) as Hd.
  { apply list_elem_of_fmap. eauto. }
  split_and!.
  - by apply Hthis.
  - intros Hb. destruct (Hbij Hb) as [_ Hall].
    rewrite Forall_forall in Hall. by apply (Hall i Hi), Hthis.
  - rewrite Hts. apply map_lookup_filter_None. right.
    intros v Hv. apply Hmem in Hd as [_ Hle]. simpl. lia.
  - apply Hgone, list_elem_of_fmap. by exists (inv_timestamp i, inv_value i).
Qed.
End delivery.

(** ** The dummy event of the constructor *)

Ltac sentinel_lookups :=
  intros; simpl in *;
  rewrite ?lookup_insert, ?lookup_delete in *;
  repeat case_decide; subst; eauto; try congruence.

Section sentinel.
Context {T : Type} `{Countable T} (T_default : T).
Implicit Types (q : TimedEventQueue T) (ts dummy : Z) (v : T).

Lemma sentinel_kept_ctor now :
  sentinel_kept T_default (CENTENNIAL now) (TimedEventQueue_ctor T_default now).
Proof.
  unfold sentinel_kept, TimedEventQueue_ctor. simpl. unfold emplace.
  rewrite !lookup_empty. split_and!.
  - apply lookup_insert_eq.
  - apply lookup_insert_eq.
  - intros ts [[??]|[_ E]]%lookup_insert_Some; [done|].
    by rewrite lookup_empty in E.
  - intros v [[??]|[_ E]]%lookup_insert_Some; [done|].
    by rewrite lookup_empty in E.
Qed.

Lemma sentinel_kept_nonempty dummy q :
  sentinel_kept T_default dummy q → _ts2Val q ≠ ∅ ∧ _val2Ts q ≠ ∅.
Proof.
  intros (Hd1 & Hd2 & _). split; intros E; rewrite E, lookup_empty in *; done.
Qed.

Lemma exec_sentinel_kept dummy (c : call T) q q' :
  call_avoids_sentinel T_default dummy c →
  sentinel_kept T_default dummy q → exec c q = Some q' →
  sentinel_kept T_default dummy q'.
Proof.
  intros Hc (Hd1 & Hd2 & Hu1 & Hu2).
  destruct c as [ts v|v|ts|ts v|ts v]; simpl in *.
  - destruct Hc as [Hts Hv]. intros [= <-]. unfold sentinel_kept.
    rewrite addEvent_ts2Val, addEvent_val2Ts. unfold emplace.
    destruct (_ts2Val q !! ts), (_val2Ts q !! v);
      split_and!; sentinel_lookups.
  - intros [= <-]. unfold removeEvent_value.
    destruct (_val2Ts q !! v) as [old|] eqn:E; [|done].
    assert (old ≠ dummy) by (intros ->; by apply Hc, Hu2).
    unfold sentinel_kept, erase. split_and!; sentinel_lookups.
  - intros [= <-]. unfold removeEvent_timestamp.
    destruct (_ts2Val q !! ts) as [old|] eqn:E; [|done].
    assert (old ≠ T_default) by (intros ->; by apply Hc, Hu1).
    unfold sentinel_kept, erase. split_and!; sentinel_lookups.
  - destruct Hc as [Hts Hv]. unfold updateValue, extract, insert_node.
    destruct (_ts2Val q !! ts) as [old|] eqn:E; [|by intros [= <-]].
    assert (old ≠ T_default) as Hold by (intros ->; by apply Hts, Hu1).
    destruct (_val2Ts q !! old) as [node|] eqn:E'; simpl; [|done].
    assert (node ≠ dummy) by (intros ->; by apply Hold, Hu2).
    intros [= <-]. unfold sentinel_kept. simpl.
    destruct (delete old (_val2Ts q) !! v);
      split_and!; sentinel_lookups.
  - destruct Hc as [Hts Hv]. unfold updateTimestamp, extract, insert_node.
    destruct (_val2Ts q !! v) as [old|] eqn:E; [|by intros [= <-]].
    assert (old ≠ dummy) as Hold by (intros ->; by apply Hv, Hu2).
    destruct (_ts2Val q !! old) as [node|] eqn:E'; simpl; [|done].
    assert (node ≠ T_default) by (intros ->; by apply Hold, Hu1).
    intros [= <-]. unfold sentinel_kept. simpl.
    destruct (delete old (_ts2Val q) !! ts);
      split_and!; sentinel_lookups.
Qed.

Lemma sentinel_has_pending now dummy q :
  now < dummy → sentinel_kept T_default dummy q → has_pending now q.
Proof. intros Hlt (Hd1 & _). by exists dummy, T_default. Qed.

(** Before the dummy is due, a round of the worker is defined and leaves
    the dummy where it is. *)
Lemma run_iteration_sentinel_kept now dummy q :
  now < dummy → sentinel_kept T_default dummy q →
  ∃ q' calls, run_iteration now q = Done q' calls ∧
              sentinel_kept T_default dummy q'.
Proof.
  intros Hlt Hs. pose proof (sentinel_has_pending _ _ _ Hlt Hs) as Hpend.
  unfold run_iteration. destruct (_exit q) eqn:He; [eauto|].
  destruct (has_pending_begin _ _ Hpend) as [p ->].
  destruct (drain_has_pending now q Hpend)
    as (q' & calls & -> & _ & Hmem & Hts & Hkeep & Hgone & _).
  exists q', calls. split; [done|].
  destruct Hs as (Hd1 & Hd2 & Hu1 & Hu2).
  assert (T_default ∉ (delivered calls).*2) as Hnot.
  { intros ([ts v] & -> & [Hin Hle]%Hmem)%list_elem_of_fmap.
    apply Hu1 in Hin. lia. }
  unfold sentinel_kept. rewrite Hts. split_and!.
  - by apply map_lookup_filter_Some.
  - by rewrite Hkeep.
  - intros ts [Hin _]%map_lookup_filter_Some. by apply Hu1.
  - intros v Hv. destruct (decide (v ∈ (delivered calls).*2)) as [Hin|Hout].
    + by rewrite Hgone in Hv.
    + rewrite Hkeep in Hv by done. by apply Hu2.
Qed.

Lemma act_sentinel_kept dummy (a : action T) q q' :
  avoids_sentinel T_default dummy a →
  sentinel_kept T_default dummy q → act a q = Some q' →
  sentinel_kept T_default dummy q'.
Proof.
  destruct a as [c|now]; simpl.
  - apply exec_sentinel_kept.
  - intros Hlt Hs.
    destruct (run_iteration_sentinel_kept now dummy q Hlt Hs)
      as (q1 & calls & -> & Hs1).
    by intros [= <-].
Qed.

Lemma act_all_sentinel_kept dummy (l : list (action T)) : ∀ q q',
  Forall (avoids_sentinel T_default dummy) l →
  sentinel_kept T_default dummy q → act_all l q = Some q' →
  sentinel_kept T_default dummy q'.
Proof.
  induction l as [|a l IH]; intros q q' Hall Hs; simpl.
  - by intros [= <-].
  - apply Forall_cons in Hall as [Ha Hall].
    destruct (act a q) as [q1|] eqn:E; [|done].
    apply IH; [done|]. by eapply act_sentinel_kept.
Qed.

(** C3 (amended). Callers that never pass [T()] as a value nor the dummy
    timestamp as a timestamp, and a worker that wakes before the dummy
    timestamp, leave the dummy event in both maps of every object they
    reach from the constructed one, so neither map is empty, and the
    worker's next round is defined. *)
Theorem sentinel_kept_invariant now (l : list (action T)) q :
  Forall (avoids_sentinel T_default (CENTENNIAL now)) l →
  act_all l (TimedEventQueue_ctor T_default now) = Some q →
  _ts2Val q !! CENTENNIAL now = Some T_default ∧
  _val2Ts q !! T_default = Some (CENTENNIAL now) ∧
  _ts2Val q ≠ ∅ ∧ _val2Ts q ≠ ∅ ∧
  ∀ current_time, current_time < CENTENNIAL now →
    ∃ q' calls, run_iteration current_time q = Done q' calls.
Proof.
  intros Hall Hrun.
  assert (sentinel_kept T_default (CENTENNIAL now) q) as Hs.
  { eapply act_all_sentinel_kept; [done| |done]. apply sentinel_kept_ctor. }
  destruct (sentinel_kept_nonempty _ _ Hs) as [Hne1 Hne2].
  pose proof Hs as (Hd1 & Hd2 & _). split_and!; try done.
  intros current_time Hlt.
  destruct (run_iteration_sentinel_kept _ _ _ Hlt Hs) as (q' & calls & ? & _).
  eauto.
Qed.
End sentinel.


(** ** The demo program and other concrete runs *)

Ltac by_computation :=
  vm_compute; first [reflexivity | discriminate | intros; discriminate].
Ltac decide_by_computation := apply (bool_decide_unpack _); vm_compute; exact I.

Lemma bijective_ctor {T : Type} `{Countable T} (T_default : T) now :
  bijective (TimedEventQueue_ctor T_default now).
Proof.
  apply (bijective_fields
           (addEvent (CENTENNIAL now) T_default (@members_init T _ _)));
    try done.
  apply addEvent_bijective; [apply bijective_members_init|done..].
Qed.

Lemma bijective_two_events : bijective two_events.
Proof.
  apply addEvent_bijective; [apply addEvent_bijective|..];
    [apply bijective_ctor|by_computation..].
Qed.

Lemma has_pending_two_events : has_pending 5 two_events.
Proof. exists (CENTENNIAL 0), 0. split; by_computation. Qed.

(** The calls of [main] keep the object of [main] in bijection. *)
Lemma bijection_invariant_witness :
  ∃ q, exec_all (main_calls 0) (MyTimedEventQueue 0) = Some q ∧ bijective q.
Proof.
  apply (bijection_invariant (main_calls 0) (MyTimedEventQueue 0)).
  - apply bijective_ctor.
  - decide_by_computation.
  - decide_by_computation.
  - apply Forall_forall. repeat constructor.
  - apply Forall_forall. repeat constructor.
  - reflexivity.
Defined.

(** Three due events added latest first come out earliest first. *)
Lemma drain_delivers_due_in_order_witness :
  (∃ q' calls,
     drain (drain_fuel two_events) 5 two_events [] = Done q' calls ∧
     StronglySorted by_timestamp (delivered calls)) ∧
  (∃ q' calls,
     run_iteration 5 (add_all [(3, 30); (2, 20); (1, 10)] (MyTimedEventQueue 0))
       = Done q' calls ∧
     delivered calls = [(1, 10); (2, 20); (3, 30)]).
Proof.
  destruct (drain_delivers_due_in_order 0 5) as [Hloop Horder]. split.
  - destruct (Hloop two_events has_pending_two_events)
      as (q' & calls & Hrun & Hsorted & _).
    exists q', calls. split; assumption.
  - apply (Horder 0 [(1, 10); (2, 20); (3, 30)]).
    + repeat constructor.
    + repeat (constructor; [by_computation|]). constructor.
    + by_computation.
    + etrans; [apply perm_skip, perm_swap|].
      etrans; [apply perm_swap|]. apply perm_skip, perm_swap.
Defined.

(** The calls of [main], then the worker waking after six seconds. *)
Lemma sentinel_kept_invariant_witness :
  ∃ q,
    act_all (map Caller (main_calls 0) ++ [Worker (seconds 6)])
            (MyTimedEventQueue 0) = Some q ∧
    _ts2Val q !! CENTENNIAL 0 = Some 0 ∧
    _val2Ts q !! 0 = Some (CENTENNIAL 0).
Proof.
  eexists. split; [by_computation|].
  edestruct (sentinel_kept_invariant 0 0
               (map Caller (main_calls 0) ++ [Worker (seconds 6)]))
    as (Hts & Hv & _).
  - repeat (constructor; [simpl; try split; by_computation|]). constructor.
  - by_computation.
  - split; assumption.
Defined.

Lemma fire_delivers_then_removes_witness :
  ∃ q' calls,
    drain (drain_fuel two_events) 5 two_events [] = Done q' calls ∧
    ∀ i, i ∈ calls →
      _ts2Val (inv_this i) !! inv_timestamp i = Some (inv_value i) ∧
      (bijective two_events →
         _val2Ts (inv_this i) !! inv_value i = Some (inv_timestamp i)) ∧
      _ts2Val q' !! inv_timestamp i = None ∧
      _val2Ts q' !! inv_value i = None.
Proof. exact (fire_delivers_then_removes 5 two_events has_pending_two_events). Defined.

Lemma updateTimestamp_spec_witness :
  updateTimestamp 7 99 two_events = Some (notify_one two_events) ∧
  ∃ q', updateTimestamp 7 10 two_events = Some q' ∧
        _ts2Val q' !! 7 = Some 10 ∧ _ts2Val q' !! 1 = None ∧
        _val2Ts q' !! 10 = Some 7 ∧ bijective q'.
Proof.
  split.
  - apply (proj1 (updateTimestamp_spec 7 99 two_events)). by_computation.
  - destruct (proj2 (updateTimestamp_spec 7 10 two_events) 1)
      as (q' & Hq' & Hts & Hv & Hb & _).
    + by_computation.
    + apply bijective_two_events.
    + intros v' Hv'. vm_compute in Hv'. discriminate.
    + exists q'. rewrite Hts, Hv. split_and!; try assumption; by_computation.
Defined.

Lemma updateValue_spec_witness :
  updateValue 7 99 two_events = Some (notify_one two_events) ∧
  ∃ q', updateValue 1 99 two_events = Some q' ∧
        _ts2Val q' !! 1 = Some 99 ∧ _val2Ts q' !! 99 = Some 1 ∧
        _val2Ts q' !! 10 = None ∧ bijective q'.
Proof.
  split.
  - apply (proj1 (updateValue_spec 7 99 two_events)). by_computation.
  - destruct (proj2 (updateValue_spec 1 99 two_events) 10)
      as (q' & Hq' & Hts & Hv & Hb).
    + by_computation.
    + apply bijective_two_events.
    + intros ts' Hts'. vm_compute in Hts'. discriminate.
    + exists q'. rewrite Hts, Hv. split_and!; try assumption; by_computation.
Defined.

Lemma removeEvent_idempotent_total_witness :
  removeEvent_value 99 two_events = two_events ∧
  removeEvent_timestamp 7 two_events = two_events ∧
  removeEvent_value 10 (removeEvent_value 10 two_events)
  = removeEvent_value 10 two_events.
Proof.
  destruct (removeEvent_idempotent_total two_events)
    as (Hv & Hts & _ & _ & Hvv & _).
  split_and!.
  - apply Hv. by_computation.
  - apply Hts. by_computation.
  - apply Hvv.
Defined.

Lemma stop_idempotent_witness :
  _thread_joinable (stop two_events) = false ∧
  stop (stop two_events) = stop two_events.
Proof.
  split; [by_computation|].
  apply (proj1 (stop_idempotent (stop two_events))). by_computation.
Defined.

Lemma addEvent_never_overwrites_witness :
  _ts2Val (addEvent 1 99 two_events) = _ts2Val two_events ∧
  _val2Ts (addEvent 7 10 two_events) = _val2Ts two_events.
Proof.
  split.
  - apply (proj1 (addEvent_never_overwrites 1 99 two_events)).
    exists 10. by_computation.
  - apply (proj1 (proj2 (addEvent_never_overwrites 7 10 two_events))).
    exists 1. by_computation.
Defined.

(** *** Runs on which the specification's wording fails *)

(** Against C3 as written: [removeEvent(T())] on a new object erases the
    dummy event, both maps are empty, and the worker's next round
    dereferences [begin()] of an empty map. *)
Lemma removeEvent_default_erases_sentinel :
  ∃ q, act_all [Caller (RemoveEventValue 0)] (MyTimedEventQueue 0) = Some q ∧
       _ts2Val q = ∅ ∧ _val2Ts q = ∅ ∧
       run_iteration 5 q = Undefined.
Proof. eexists. split; [by_computation|]. split_and!; by_computation. Qed.

(** Against C5 as written: the first call of the handler in a round over
    [two_events] is made on an object that still has the pair in both
    maps. *)
Lemma handler_called_before_erase :
  ∃ q' i calls,
    drain (drain_fuel two_events) 5 two_events [] = Done q' (i :: calls) ∧
    inv_timestamp i = 1 ∧ inv_value i = 10 ∧
    _ts2Val (inv_this i) !! 1 = Some 10 ∧
    _val2Ts (inv_this i) !! 10 = Some 1.
Proof. do 3 eexists. split; [by_computation|]. split_and!; by_computation. Qed.

(** Against C6 as written: moving value [10] onto the timestamp of value
    [20], the node of [10] is dropped, [_ts2Val] keeps [2 -> 20] and no pair
    with [10], while [_val2Ts] maps both values to [2]. *)
Lemma updateTimestamp_collision_breaks_bijection :
  bijective two_events ∧ _val2Ts two_events !! 10 = Some 1 ∧
  ∃ q', updateTimestamp 2 10 two_events = Some q' ∧
        _ts2Val q' !! 2 = Some 20 ∧ _val2Ts q' !! 10 = Some 2 ∧
        ¬ bijective q'.
Proof.
  split; [apply bijective_two_events|]. split; [by_computation|].
  eexists. split; [by_computation|]. split_and!; try by_computation.
  intros Hb. specialize (Hb 2 10). vm_compute in Hb.
  destruct Hb as [_ Hb]. specialize (Hb eq_refl). discriminate Hb.
Qed.

(** Against C7 as written: giving timestamp [1] the value [20] stored at
    [2], the node of the old value is dropped, [_ts2Val] holds [20] twice
    and [_val2Ts] maps it to [2] only. *)
Lemma updateValue_collision_breaks_bijection :
  bijective two_events ∧ _ts2Val two_events !! 1 = Some 10 ∧
  ∃ q', updateValue 1 20 two_events = Some q' ∧
        _ts2Val q' !! 1 = Some 20 ∧ _val2Ts q' !! 20 = Some 2 ∧
        ¬ bijective q'.
Proof.
  split; [apply bijective_two_events|]. split; [by_computation|].
  eexists. split; [by_computation|]. split_and!; try by_computation.
  intros Hb. specialize (Hb 1 20). vm_compute in Hb.
  destruct Hb as [Hb _]. specialize (Hb eq_refl). discriminate Hb.
Qed.

(** The run of [main] up to its first [removeEvent]: the call erases the
    event of value [2] and makes no notification. *)
Lemma removeEvent_in_main_does_not_notify :
  ∃ q, exec_all (take 4 (main_calls 0)) (MyTimedEventQueue 0) = Some q ∧
       _val2Ts q !! 2 = Some (seconds 1) ∧
       _val2Ts (removeEvent_value 2 q) !! 2 = None ∧
       _cv_notified (removeEvent_value 2 q) = _cv_notified q.
Proof. eexists. split; [by_computation|]. split_and!; by_computation. Qed.

(** * Further properties of the member functions *)

(** ** Adding, removing and updating *)

Section more_mutators.
Context {T : Type} `{Countable T} (T_default : T).
Implicit Types (q : TimedEventQueue T) (ts : Z) (v : T).

Lemma emplace_commute {K A} `{Countable K} (k1 k2 : K) (a1 a2 : A)
    (m : gmap K A) :
  k1 ≠ k2 →
  emplace k1 a1 (emplace k2 a2 m) = emplace k2 a2 (emplace k1 a1 m).
Proof.
  intros Hne. unfold emplace.
  destruct (m !! k1) eqn:E1, (m !! k2) eqn:E2;
    rewrite ?lookup_insert_ne, ?E1, ?E2 by done; try done.
  by apply insert_insert_ne.
Qed.

(** X1. On an object in bijection the two overloads of [removeEvent] called
    with the two halves of a stored pair do the same: both maps lose that
    pair and nothing else, and the bijection stays. *)
Theorem removeEvent_overloads_agree ts v q :
  bijective q → _ts2Val q !! ts = Some v →
  removeEvent_value v q = removeEvent_timestamp ts q ∧
  _ts2Val (removeEvent_value v q) = delete ts (_ts2Val q) ∧
  _val2Ts (removeEvent_value v q) = delete v (_val2Ts q) ∧
  bijective (removeEvent_value v q).
Proof.
  intros Hb Hts. pose proof (proj1 (Hb _ _) Hts) as Hv.
  split_and!.
  - unfold removeEvent_value, removeEvent_timestamp. by rewrite Hts, Hv.
  - unfold removeEvent_value. by rewrite Hv.
  - unfold removeEvent_value. by rewrite Hv.
  - by apply removeEvent_value_bijective.
Qed.

(** X2. Adding an event whose timestamp and value are both new and removing
    it again, by value or by timestamp, gives back both maps; what is
    left of the two calls is the one notification of [addEvent]. *)
Theorem addEvent_removeEvent_round_trip ts v q :
  _ts2Val q !! ts = None → _val2Ts q !! v = None →
  removeEvent_value v (addEvent ts v q) = notify_one q ∧
  removeEvent_timestamp ts (addEvent ts v q) = notify_one q.
Proof.
  intros Hts Hv.
  unfold removeEvent_value, removeEvent_timestamp.
  rewrite addEvent_ts2Val, addEvent_val2Ts, !emplace_free by done.
  rewrite !lookup_insert_eq. unfold addEvent. unfold_setters.
  rewrite !emplace_free by done. unfold erase.
  rewrite !delete_insert_id by done. done.
Qed.

(** X3. Two [addEvent] calls with different timestamps and different values
    give the same object in either order. *)
Theorem addEvent_commute ts1 v1 ts2 v2 q :
  ts1 ≠ ts2 → v1 ≠ v2 →
  addEvent ts1 v1 (addEvent ts2 v2 q) = addEvent ts2 v2 (addEvent ts1 v1 q).
Proof.
  intros Hts Hv. unfold addEvent. unfold_setters.
  by rewrite (emplace_commute ts1 ts2), (emplace_commute v1 v2).
Qed.

Lemma ctor_ts2Val now :
  _ts2Val (TimedEventQueue_ctor T_default now)
  = {[CENTENNIAL now := T_default]}.
Proof.
  unfold TimedEventQueue_ctor.
  change (_ts2Val (set_thread_joinable true ?q)) with (_ts2Val q).
  rewrite addEvent_ts2Val. by apply emplace_free.
Qed.

Lemma ctor_val2Ts now :
  _val2Ts (TimedEventQueue_ctor T_default now)
  = {[T_default := CENTENNIAL now]}.
Proof.
  unfold TimedEventQueue_ctor.
  change (_val2Ts (set_thread_joinable true ?q)) with (_val2Ts q).
  rewrite addEvent_val2Ts. by apply emplace_free.
Qed.

Lemma removeEvent_value_present v ts q :
  _val2Ts q !! v = Some ts →
  _ts2Val (removeEvent_value v q) = delete ts (_ts2Val q) ∧
  _val2Ts (removeEvent_value v q) = delete v (_val2Ts q).
Proof. intros Hv. unfold removeEvent_value. by rewrite Hv. Qed.

Lemma removeEvent_timestamp_present ts v q :
  _ts2Val q !! ts = Some v →
  _ts2Val (removeEvent_timestamp ts q) = delete ts (_ts2Val q) ∧
  _val2Ts (removeEvent_timestamp ts q) = delete v (_val2Ts q).
Proof. intros Hts. unfold removeEvent_timestamp. by rewrite Hts. Qed.

Lemma updateValue_None ts v q :
  updateValue ts v q = None ↔
  ∃ old, _ts2Val q !! ts = Some old ∧ _val2Ts q !! old = None.
Proof.
  unfold updateValue, extract.
  destruct (_ts2Val q !! ts) as [old|]; [|split; [done|by intros (?&?&?)]].
  destruct (_val2Ts q !! old) eqn:E; simpl.
  - split; [done|]. intros (? & [= <-] & ?). congruence.
  - split; [eauto|done].
Qed.

Lemma updateTimestamp_None ts v q :
  updateTimestamp ts v q = None ↔
  ∃ old, _val2Ts q !! v = Some old ∧ _ts2Val q !! old = None.
Proof.
  unfold updateTimestamp, extract.
  destruct (_val2Ts q !! v) as [old|]; [|split; [done|by intros (?&?&?)]].
  destruct (_ts2Val q !! old) eqn:E; simpl.
  - split; [done|]. intros (? & [= <-] & ?). congruence.
  - split; [eauto|done].
Qed.

(** X4. [updateValue] is undefined exactly when the timestamp is stored with a
    value that is not a key of [_val2Ts], [updateTimestamp] exactly when
    the value is stored with a timestamp that is not a key of [_ts2Val];
    so both are defined on every object in bijection. *)
Theorem updates_undefined_iff ts v q :
  (updateValue ts v q = None ↔
     ∃ old, _ts2Val q !! ts = Some old ∧ _val2Ts q !! old = None) ∧
  (updateTimestamp ts v q = None ↔
     ∃ old, _val2Ts q !! v = Some old ∧ _ts2Val q !! old = None) ∧
  (bijective q →
     is_Some (updateValue ts v q) ∧ is_Some (updateTimestamp ts v q)).
Proof.
  split_and!.
  - apply updateValue_None.
  - apply updateTimestamp_None.
  - intros Hb. split.
    + destruct (updateValue ts v q) eqn:E; [eauto|].
      apply updateValue_None in E as (old & E1 & E2).
      apply Hb in E1. congruence.
    + destruct (updateTimestamp ts v q) eqn:E; [eauto|].
      apply updateTimestamp_None in E as (old & E1 & E2).
      apply Hb in E1. congruence.
Qed.

(** X5. Calls of the public interface alone reach the undefined case: add two
    events with one value, remove the second by its timestamp (which erases
    the value from [_val2Ts]), then update the value of the first. *)
Theorem api_reaches_undefined start ts1 ts2 v v' :
  ts1 ≠ ts2 → ts1 ≠ CENTENNIAL start → ts2 ≠ CENTENNIAL start →
  v ≠ T_default →
  exec_all [AddEvent ts1 v; AddEvent ts2 v; RemoveEventTimestamp ts2;
            UpdateValue ts1 v'] (TimedEventQueue_ctor T_default start)
  = None.
Proof.
  intros H12 H1 H2 Hv. simpl.
  enough (updateValue ts1 v'
            (removeEvent_timestamp ts2
               (addEvent ts2 v
                  (addEvent ts1 v (TimedEventQueue_ctor T_default start))))
          = None) as -> by done.
  apply updateValue_None. exists v.
  set (q0 := TimedEventQueue_ctor T_default start).
  assert (_ts2Val q0 !! ts1 = None) as E1.
  { unfold q0. rewrite ctor_ts2Val. by apply lookup_singleton_ne. }
  assert (_ts2Val q0 !! ts2 = None) as E2.
  { unfold q0. rewrite ctor_ts2Val. by apply lookup_singleton_ne. }
  assert (_val2Ts q0 !! v = None) as E3.
  { unfold q0. rewrite ctor_val2Ts. by apply lookup_singleton_ne. }
  set (q2 := addEvent ts2 v (addEvent ts1 v q0)).
  assert (_ts2Val q2 = <[ts2 := v]> (<[ts1 := v]> (_ts2Val q0))) as Hts.
  { unfold q2. rewrite !addEvent_ts2Val, (emplace_free ts1) by done.
    apply emplace_free. by rewrite lookup_insert_ne. }
  assert (_val2Ts q2 = <[v := ts1]> (_val2Ts q0)) as Hval.
  { unfold q2. rewrite !addEvent_val2Ts, (emplace_free v ts1) by done.
    apply emplace_taken. rewrite lookup_insert_eq. eauto. }
  destruct (removeEvent_timestamp_present ts2 v q2) as [-> ->].
  { rewrite Hts. apply lookup_insert_eq. }
  rewrite Hts, Hval. split.
  - by rewrite delete_insert_eq, lookup_delete_ne, lookup_insert_eq.
  - apply lookup_delete_eq.
Qed.

(** X6. Rescheduling or relabelling an event right after adding it, to a
    timestamp or value that is not stored, gives the object that adding it
    there in the first place gives, with one notification more. *)
Theorem addEvent_then_update ts v q :
  _ts2Val q !! ts = None → _val2Ts q !! v = None →
  (∀ ts', _ts2Val q !! ts' = None →
     updateTimestamp ts' v (addEvent ts v q)
     = Some (notify_one (addEvent ts' v q))) ∧
  (∀ v', _val2Ts q !! v' = None →
     updateValue ts v' (addEvent ts v q)
     = Some (notify_one (addEvent ts v' q))).
Proof.
  intros Hts Hv. split.
  - intros ts' Hts'. unfold updateTimestamp, extract, insert_node.
    rewrite addEvent_val2Ts, addEvent_ts2Val, !emplace_free by done.
    rewrite !lookup_insert_eq. simpl. rewrite delete_insert_id, Hts' by done.
    unfold addEvent. unfold_setters. rewrite !emplace_free by done.
    by rewrite insert_insert_eq.
  - intros v' Hv'. unfold updateValue, extract, insert_node.
    rewrite addEvent_val2Ts, addEvent_ts2Val, !emplace_free by done.
    rewrite !lookup_insert_eq. simpl. rewrite delete_insert_id, Hv' by done.
    unfold addEvent. unfold_setters. rewrite !emplace_free by done.
    by rewrite insert_insert_eq.
Qed.

(** X7. On an object in bijection, updating a stored pair to the value or the
    timestamp it already has changes neither map. *)
Theorem update_to_current ts v q :
  bijective q → _ts2Val q !! ts = Some v →
  updateValue ts v q = Some (notify_one q) ∧
  updateTimestamp ts v q = Some (notify_one q).
Proof.
  intros Hb Hts. pose proof (proj1 (Hb _ _) Hts) as Hv. split.
  - unfold updateValue, extract, insert_node. rewrite Hts, Hv. simpl.
    rewrite lookup_delete_eq. unfold_setters.
    by rewrite insert_delete_id, insert_id.
  - unfold updateTimestamp, extract, insert_node. rewrite Hv, Hts. simpl.
    rewrite lookup_delete_eq. unfold_setters.
    by rewrite insert_delete_id, insert_id.
Qed.

(** X8. [addEvent] with a value that is already scheduled, at a timestamp that
    is free: the pair enters [_ts2Val] only and the bijection is lost.
    [removeEvent] by that value then cancels the older event; the newer one
    stays in [_ts2Val], out of reach of the calls that go by value. *)
Theorem addEvent_duplicate_value ts v ts0 q :
  bijective q → _val2Ts q !! v = Some ts0 → _ts2Val q !! ts = None →
  _ts2Val (addEvent ts v q) !! ts = Some v ∧
  _val2Ts (addEvent ts v q) !! v = Some ts0 ∧
  ¬ bijective (addEvent ts v q) ∧
  _ts2Val (removeEvent_value v (addEvent ts v q)) !! ts = Some v ∧
  _ts2Val (removeEvent_value v (addEvent ts v q)) !! ts0 = None ∧
  _val2Ts (removeEvent_value v (addEvent ts v q)) !! v = None.
Proof.
  intros Hb Hv Hts. pose proof (proj2 (Hb _ _) Hv) as Hts0.
  assert (ts ≠ ts0) as Hne by congruence.
  assert (_ts2Val (addEvent ts v q) = <[ts := v]> (_ts2Val q)) as E1
    by (rewrite addEvent_ts2Val; by apply emplace_free).
  assert (_val2Ts (addEvent ts v q) = _val2Ts q) as E2
    by (rewrite addEvent_val2Ts; apply emplace_taken; eauto).
  destruct (removeEvent_value_present v ts0 (addEvent ts v q)) as [-> ->];
    [by rewrite E2|].
  rewrite E1, E2. split_and!.
  - apply lookup_insert_eq.
  - done.
  - intros Hb1. specialize (Hb1 ts v). rewrite E1, E2, lookup_insert_eq in Hb1.
    destruct Hb1 as [Hb1 _]. specialize (Hb1 eq_refl). congruence.
  - rewrite lookup_delete_ne, lookup_insert_eq; done.
  - apply lookup_delete_eq.
  - apply lookup_delete_eq.
Qed.
End more_mutators.

(** ** Rounds of the worker *)

Section more_worker.
Context {T : Type} `{Countable T} (T_default : T).
Implicit Types (q : TimedEventQueue T) (ts now : Z) (v : T).
Implicit Types (calls acc : list (invocation T)).

Lemma size_erase_begin q first second :
  begin (_ts2Val q) = Some (first, second) →
  S (size (erase first (_ts2Val q))) = size (_ts2Val q).
Proof.
  intros E. pose proof (begin_lookup _ _ _ E) as Hfirst. unfold erase.
  rewrite map_size_delete_Some by eauto.
  assert (size (_ts2Val q) ≠ 0%nat); [|lia].
  intros Hz%map_size_empty_inv. by rewrite Hz, lookup_empty in Hfirst.
Qed.

(** What the accumulator holds is handed through. *)
Lemma drain_acc now : ∀ fuel q acc,
  drain fuel now q acc =
  match drain fuel now q [] with
  | Done q' calls => Done q' (acc ++ calls)
  | other => other
  end.
Proof.
  induction fuel as [|fuel IH]; intros q acc; simpl; [done|].
  destruct (begin (_ts2Val q)) as [[first second]|]; [|done].
  destruct (first <=? now); [|by rewrite app_nil_r].
  rewrite IH, (IH _ [_]).
  destruct (drain fuel now _ []); try done. by rewrite <- app_assoc.
Qed.

(** More fuel than needed changes nothing. *)
Lemma drain_fuel_irrelevant now : ∀ fuel1 fuel2 q acc,
  (size (_ts2Val q) < fuel1)%nat → (size (_ts2Val q) < fuel2)%nat →
  drain fuel1 now q acc = drain fuel2 now q acc.
Proof.
  induction fuel1 as [|fuel1 IH]; intros [|fuel2] q acc H1 H2; try lia.
  simpl. destruct (begin (_ts2Val q)) as [[first second]|] eqn:E; [|done].
  destruct (first <=? now); [|done].
  apply size_erase_begin in E. apply IH; simpl; lia.
Qed.

(** Where the loop ends, the first pair left is not due; the loop touches
    nothing but the two maps, and keeps them in bijection. *)
Lemma drain_Done_inv now : ∀ fuel q acc q' calls,
  drain fuel now q acc = Done q' calls →
  (∃ first second,
     begin (_ts2Val q') = Some (first, second) ∧ now < first) ∧
  (bijective q → bijective q') ∧
  _exit q' = _exit q ∧ _thread_joinable q' = _thread_joinable q ∧
  _cv_notified q' = _cv_notified q.
Proof.
  induction fuel as [|fuel IH]; intros q acc q' calls; simpl; [done|].
  destruct (begin (_ts2Val q)) as [[first second]|] eqn:E; [|done].
  destruct (Z.leb_spec first now) as [Hdue|Hnot].
  - intros Hrun. apply IH in Hrun as (Hbeg & Hbij & He & Hj & Hn).
    split_and!; try done. intros Hb. apply Hbij.
    intros ts v. simpl. unfold erase. rewrite !lookup_delete.
    pose proof (begin_lookup _ _ _ E). bijection_cases Hb.
  - intros [= <- <-]. split_and!; eauto.
Qed.

Lemma drain_no_pending now : ∀ fuel q acc,
  (size (_ts2Val q) < fuel)%nat → ¬ has_pending now q →
  drain fuel now q acc = Undefined.
Proof.
  induction fuel as [|fuel IH]; intros q acc Hsize Hnone; [lia|]. simpl.
  destruct (begin (_ts2Val q)) as [[first second]|] eqn:E; [|done].
  pose proof (begin_lookup _ _ _ E) as Hfirst.
  destruct (Z.leb_spec first now) as [Hdue|Hnot].
  - apply size_erase_begin in E. apply IH; [simpl; lia|].
    intros (ts & v & Hin & Hlt). apply Hnone. exists ts, v.
    simpl in Hin. unfold erase in Hin.
    apply lookup_delete_Some in Hin as [_ Hin]. done.
  - destruct Hnone. by exists first, second.
Qed.

(** A round with some event not due: what [drain_has_pending] says of the
    inner loop, also when the exit flag skips the loop. *)
Lemma run_iteration_has_pending now q :
  has_pending now q →
  ∃ q' calls,
    run_iteration now q = Done q' calls ∧
    StronglySorted by_timestamp (delivered calls) ∧
    (∀ ts v, (ts, v) ∈ delivered calls →
             _ts2Val q !! ts = Some v ∧ ts ≤ now) ∧
    (_exit q = false → ∀ ts v, _ts2Val q !! ts = Some v → ts ≤ now →
                       (ts, v) ∈ delivered calls) ∧
    (∀ v, v ∉ (delivered calls).*2 → _val2Ts q' !! v = _val2Ts q !! v).
Proof.
  intros Hpend. unfold run_iteration. destruct (_exit q) eqn:He.
  - exists q, []. split_and!; try done; [constructor|].
    by intros ts v ?%elem_of_nil.
  - destruct (has_pending_begin _ _ Hpend) as [p ->].
    destruct (drain_has_pending now q Hpend)
      as (q' & calls & -> & Hsorted & Hmem & _ & Hkeep & _).
    exists q', calls. split_and!; try done.
    + intros ts v. apply Hmem.
    + intros _ ts v ??. by apply Hmem.
Qed.

(** X9. An event removed by value from an object in bijection, or by timestamp
    from any object, is not delivered by the round that follows. *)
Theorem removed_event_is_not_delivered now q :
  (∀ v, bijective q → has_pending now (removeEvent_value v q) →
     ∃ q' calls,
       run_iteration now (removeEvent_value v q) = Done q' calls ∧
       v ∉ (delivered calls).*2) ∧
  (∀ ts, has_pending now (removeEvent_timestamp ts q) →
     ∃ q' calls,
       run_iteration now (removeEvent_timestamp ts q) = Done q' calls ∧
       ts ∉ (delivered calls).*1).
Proof.
  split.
  - intros v Hb Hpend.
    destruct (run_iteration_has_pending _ _ Hpend)
      as (q' & calls & Hrun & _ & Hmem & _).
    exists q', calls. split; [done|].
    intros ([ts v'] & Heq & [Hin _]%Hmem)%list_elem_of_fmap.
    simpl in Heq. subst v'.
    apply (removeEvent_value_bijective v q Hb) in Hin.
    by rewrite removeEvent_value_gone in Hin.
  - intros ts Hpend.
    destruct (run_iteration_has_pending _ _ Hpend)
      as (q' & calls & Hrun & _ & Hmem & _).
    exists q', calls. split; [done|].
    intros ([ts' v] & Heq & [Hin _]%Hmem)%list_elem_of_fmap.
    simpl in Heq. subst ts'.
    by rewrite removeEvent_timestamp_gone in Hin.
Qed.

Lemma run_iteration_no_pending now q :
  _exit q = false → ¬ has_pending now q → run_iteration now q = Undefined.
Proof.
  intros He Hnone. unfold run_iteration. rewrite He.
  destruct (begin (_ts2Val q)); [|done].
  apply drain_no_pending; [unfold drain_fuel; lia|done].
Qed.

(** X10. With the exit flag down, a round is undefined exactly when every stored
    event is due: the inner loop erases them all and dereferences [begin()]
    of the empty map. *)
Theorem run_iteration_undefined_iff now q :
  _exit q = false →
  (run_iteration now q = Undefined ↔ ¬ has_pending now q).
Proof.
  intros He. split.
  - intros Hrun Hpend.
    destruct (run_iteration_has_pending _ _ Hpend) as (q' & calls & E & _).
    congruence.
  - by apply run_iteration_no_pending.
Qed.

Lemma begin_singleton {A} (k : Z) (a : A) :
  begin ({[k := a]} : gmap Z A) = Some (k, a).
Proof.
  apply begin_unique; [apply lookup_singleton_eq|].
  intros k' a' [-> _]%lookup_singleton_Some. lia.
Qed.

Lemma run_iteration_not_due now q first second :
  _exit q = false → begin (_ts2Val q) = Some (first, second) →
  now < first → run_iteration now q = Done q [].
Proof.
  intros He Hbeg Hlt. unfold run_iteration, drain_fuel.
  rewrite He, Hbeg. simpl. rewrite Hbeg.
  destruct (Z.leb_spec first now); [lia|done].
Qed.

(** X11. On a new object a round before the dummy timestamp calls no handler
    and changes nothing; a round at or after it delivers the dummy event
    and is undefined. *)
Theorem new_object_rounds start now :
  (now < CENTENNIAL start →
     run_iteration now (TimedEventQueue_ctor T_default start)
     = Done (TimedEventQueue_ctor T_default start) []) ∧
  (CENTENNIAL start ≤ now →
     run_iteration now (TimedEventQueue_ctor T_default start) = Undefined).
Proof.
  split; intros Hnow.
  - apply (run_iteration_not_due _ _ (CENTENNIAL start) T_default);
      [done| |done].
    rewrite ctor_ts2Val. apply begin_singleton.
  - apply run_iteration_no_pending; [done|].
    intros (ts & v & Hin & Hlt). rewrite ctor_ts2Val in Hin.
    apply lookup_singleton_Some in Hin as [<- _]. lia.
Qed.

(** X12. A round that ends leaves the object in bijection if it was, and never
    touches the exit flag, the thread or the condition variable. *)
Theorem run_iteration_keeps now q q' calls :
  run_iteration now q = Done q' calls →
  (bijective q → bijective q') ∧
  _exit q' = _exit q ∧ _thread_joinable q' = _thread_joinable q ∧
  _cv_notified q' = _cv_notified q.
Proof.
  unfold run_iteration. destruct (_exit q) eqn:He.
  - by intros [= <- <-].
  - destruct (begin (_ts2Val q)); [|done].
    intros Hrun. apply drain_Done_inv in Hrun as (_ & Hb & He' & Hj & Hn).
    rewrite He', He. by split_and!.
Qed.

(** X13. After a round that ends, a round at the same or an earlier time calls
    no handler and changes nothing: no event is delivered twice. *)
Theorem round_delivers_once now now' q q' calls :
  run_iteration now q = Done q' calls → now' ≤ now →
  run_iteration now' q' = Done q' [].
Proof.
  unfold run_iteration at 1. destruct (_exit q) eqn:He.
  - intros [= <- <-] _. unfold run_iteration. by rewrite He.
  - destruct (begin (_ts2Val q)); [|done].
    intros Hrun Hle.
    apply drain_Done_inv in Hrun
      as ((first & second & Hbeg & Hlt) & _ & He' & _).
    apply (run_iteration_not_due _ _ first second); [congruence|done|lia].
Qed.

Lemma drain_split now1 now2 : now1 ≤ now2 → ∀ fuel q acc q1 calls1,
  (size (_ts2Val q) < fuel)%nat →
  drain fuel now1 q acc = Done q1 calls1 →
  drain fuel now2 q acc = drain (drain_fuel q1) now2 q1 calls1.
Proof.
  intros Hle. induction fuel as [|fuel IH]; intros q acc q1 calls1 Hsize Hrun;
    [lia|].
  simpl in Hrun.
  destruct (begin (_ts2Val q)) as [[first second]|] eqn:E; [|done].
  destruct (Z.leb_spec first now1) as [Hdue|Hnot].
  - simpl. rewrite E. destruct (Z.leb_spec first now2); [|lia].
    apply size_erase_begin in E. apply IH; [simpl; lia|done].
  - injection Hrun as <- <-.
    apply drain_fuel_irrelevant; [done|unfold drain_fuel; lia].
Qed.

(** X14. Two rounds, the second not earlier than the first, call the handler
    as one round at the second time does, and end in the same object. *)
Theorem rounds_compose now1 now2 q :
  now1 ≤ now2 → has_pending now2 q →
  ∃ q1 calls1 q2 calls2,
    run_iteration now1 q = Done q1 calls1 ∧
    run_iteration now2 q1 = Done q2 calls2 ∧
    run_iteration now2 q = Done q2 (calls1 ++ calls2).
Proof.
  intros Hle Hpend2.
  assert (has_pending now1 q) as Hpend1.
  { destruct Hpend2 as (ts & v & ? & ?). exists ts, v. split; [done|lia]. }
  unfold run_iteration. destruct (_exit q) eqn:He.
  - exists q, [], q, []. by rewrite He.
  - destruct (has_pending_begin _ _ Hpend1) as [p Hp]. rewrite Hp.
    destruct (drain_has_pending now1 q Hpend1) as (q1 & calls1 & Hrun1 & _).
    destruct (drain_has_pending now2 q Hpend2) as (q2 & calls & Hrun2 & _).
    pose proof Hrun1 as Hinv.
    apply drain_Done_inv in Hinv as ((f & s & Hbeg & _) & _ & He1 & _).
    assert (size (_ts2Val q) < drain_fuel q)%nat as Hfuel
      by (unfold drain_fuel; lia).
    pose proof (drain_split now1 now2 Hle _ q [] q1 calls1 Hfuel Hrun1)
      as Hsplit.
    rewrite Hrun2, drain_acc in Hsplit.
    destruct (drain (drain_fuel q1) now2 q1 []) as [q2' calls2| |] eqn:E2;
      try done.
    injection Hsplit as -> ->.
    exists q1, calls1, q2', calls2.
    by rewrite Hrun1, He1, He, Hbeg, E2, Hrun2.
Qed.

(** Mutators and the worker leave the exit flag and the thread alone. *)
Lemma exec_flags (c : call T) q q' :
  exec c q = Some q' →
  _exit q' = _exit q ∧ _thread_joinable q' = _thread_joinable q.
Proof.
  destruct c as [ts v|v|ts|ts v|ts v]; simpl.
  - by intros [= <-].
  - intros [= <-]. unfold removeEvent_value. by destruct (_val2Ts q !! v).
  - intros [= <-]. unfold removeEvent_timestamp.
    by destruct (_ts2Val q !! ts).
  - unfold updateValue, extract. destruct (_ts2Val q !! ts) as [old|].
    + destruct (_val2Ts q !! old); simpl; [|done]. by intros [= <-].
    + by intros [= <-].
  - unfold updateTimestamp, extract. destruct (_val2Ts q !! v) as [old|].
    + destruct (_ts2Val q !! old); simpl; [|done]. by intros [= <-].
    + by intros [= <-].
Qed.

Lemma exec_notified (c : call T) q q' :
  exec c q = Some q' →
  _cv_notified q' = ((if notifies c then 1 else 0) + _cv_notified q)%nat.
Proof.
  destruct c as [ts v|v|ts|ts v|ts v]; simpl.
  - by intros [= <-].
  - intros [= <-]. unfold removeEvent_value. by destruct (_val2Ts q !! v).
  - intros [= <-]. unfold removeEvent_timestamp.
    by destruct (_ts2Val q !! ts).
  - apply updateValue_notifies.
  - apply updateTimestamp_notifies.
Qed.

(** X15. A list of calls that is defined makes one notification for each
    [addEvent], [updateValue] and [updateTimestamp] in it, found or not, and
    none for a [removeEvent]; it never touches the exit flag or the
    thread. *)
Theorem exec_all_effects (cs : list (call T)) : ∀ q q',
  exec_all cs q = Some q' →
  _cv_notified q' = (notifications cs + _cv_notified q)%nat ∧
  _exit q' = _exit q ∧ _thread_joinable q' = _thread_joinable q.
Proof.
  induction cs as [|c cs IH]; intros q q'; simpl.
  - by intros [= <-].
  - destruct (exec c q) as [q1|] eqn:E; [|done]. intros Hrest.
    apply IH in Hrest as (Hn & He & Hj).
    apply exec_notified in E as Hn1. apply exec_flags in E as [He1 Hj1].
    split_and!; [lia|congruence..].
Qed.

Lemma act_all_calls_exit (l : list (action T)) : ∀ q q' calls,
  _exit q = true → act_all_calls l q = Some (q', calls) →
  calls = [] ∧ _exit q' = true.
Proof.
  induction l as [|a l IH]; intros q q' calls He; simpl.
  - by intros [= <- <-].
  - destruct a as [c|now]; simpl.
    + destruct (exec c q) as [q1|] eqn:E; [|done].
      apply exec_flags in E as [He1 _].
      destruct (act_all_calls l q1) as [[q2 later]|] eqn:E2; [|done].
      intros [= <- <-]. apply IH in E2 as [-> ?]; [done|congruence].
    + unfold run_iteration. rewrite He.
      destruct (act_all_calls l q) as [[q2 later]|] eqn:E2; [|done].
      intros [= <- <-]. by apply IH in E2 as [-> ?].
Qed.

(** X16. [stop] on a running object raises the exit flag and leaves both maps as
    they are; whatever callers and worker rounds follow, no handler is
    called any more, events that are due included, and the destructor
    that follows an explicit [stop] changes nothing. *)
Theorem stop_halts_delivery q :
  _thread_joinable q = true →
  _exit (stop q) = true ∧
  _ts2Val (stop q) = _ts2Val q ∧ _val2Ts (stop q) = _val2Ts q ∧
  TimedEventQueue_dtor (stop q) = stop q ∧
  ∀ (l : list (action T)) q' calls,
    act_all_calls l (stop q) = Some (q', calls) → calls = [].
Proof.
  intros Hj. unfold TimedEventQueue_dtor, stop. rewrite Hj. simpl.
  split_and!; try done.
  intros l q' calls Hrun. by apply act_all_calls_exit in Hrun as [-> _].
Qed.

Lemma run_iteration_first now q first second q' calls :
  _exit q = false → begin (_ts2Val q) = Some (first, second) →
  first ≤ now → run_iteration now q = Done q' calls →
  ∃ rest, calls = mkInvocation first second q :: rest.
Proof.
  intros He Hbeg Hdue. unfold run_iteration, drain_fuel.
  rewrite He, Hbeg. simpl. rewrite Hbeg.
  destruct (Z.leb_spec first now); [|lia]. rewrite drain_acc.
  destruct (drain _ _ _ []) as [q'' rest| |]; try done.
  intros [= <- <-]. by exists rest.
Qed.

(** X17. [updateTimestamp] to a timestamp earlier than every stored one puts
    the pair first in [_ts2Val], and the next round that finds it due calls
    the handler on it before any other. *)
Theorem reschedule_earlier_fires_first ts v old q :
  bijective q → _val2Ts q !! v = Some old →
  (∀ ts' v', _ts2Val q !! ts' = Some v' → ts < ts') →
  ∃ q1,
    updateTimestamp ts v q = Some q1 ∧
    begin (_ts2Val q1) = Some (ts, v) ∧
    ∀ now, _exit q = false → ts ≤ now → has_pending now q1 →
      ∃ q' i calls,
        run_iteration now q1 = Done q' (i :: calls) ∧
        inv_timestamp i = ts ∧ inv_value i = v.
Proof.
  intros Hb Hv Hearly.
  destruct (updateTimestamp_present ts v old q Hv Hb)
    as (q1 & Hq1 & Hts & _).
  { intros v' Hin. apply Hearly in Hin. lia. }
  assert (begin (_ts2Val q1) = Some (ts, v)) as Hbeg.
  { apply begin_unique; rewrite Hts; [apply lookup_insert_eq|].
    intros ts' v' [[-> _]|[_ [_ Hin]%lookup_delete_Some]]%lookup_insert_Some;
      [lia|].
    apply Hearly in Hin. lia. }
  exists q1. split_and!; try done. intros now He Hdue Hpend.
  destruct (run_iteration_has_pending _ _ Hpend) as (q' & calls & Hrun & _).
  assert (_exit q1 = false) as He1.
  { apply (exec_flags (UpdateTimestamp ts v)) in Hq1 as [-> _]. done. }
  destruct (run_iteration_first _ _ _ _ _ _ He1 Hbeg Hdue Hrun) as [rest ->].
  by exists q', (mkInvocation ts v q1), rest.
Qed.

(** X18. After [updateValue] with a value that is not stored, the round that
    finds the timestamp due hands the handler the new value, and the old
    value is not delivered. *)
Theorem updated_value_is_delivered ts v old q :
  bijective q → _ts2Val q !! ts = Some old → _val2Ts q !! v = None →
  ∃ q1,
    updateValue ts v q = Some q1 ∧
    ∀ now, _exit q = false → ts ≤ now → has_pending now q1 →
      ∃ q' calls,
        run_iteration now q1 = Done q' calls ∧
        (ts, v) ∈ delivered calls ∧ old ∉ (delivered calls).*2.
Proof.
  intros Hb Hts Hv.
  destruct (updateValue_present ts v old q Hts Hb)
    as (q1 & Hq1 & Hts1 & _); [congruence|].
  exists q1. split; [done|]. intros now He Hdue Hpend.
  destruct (run_iteration_has_pending _ _ Hpend)
    as (q' & calls & Hrun & _ & Hmem & Hall & _).
  assert (_exit q1 = false) as He1.
  { apply (exec_flags (UpdateValue ts v)) in Hq1 as [-> _]. done. }
  exists q', calls. split_and!; try done.
  - apply Hall; try done. rewrite Hts1. apply lookup_insert_eq.
  - intros ([ts' v'] & Heq & [Hin _]%Hmem)%list_elem_of_fmap.
    simpl in Heq. subst v'.
    pose proof (proj1 (Hb _ _) Hts) as Hold.
    rewrite Hts1 in Hin.
    apply lookup_insert_Some in Hin as [[_ Heq]|[Hne Hin]].
    + rewrite Heq in Hv. congruence.
    + apply Hb in Hin. congruence.
Qed.

(** X19. [addEvent] at a timestamp that is taken, with a value that is not
    stored: [_ts2Val] is unchanged, the value enters [_val2Ts] alone, the
    bijection is lost, and the round that follows never delivers the new
    value, which stays behind in [_val2Ts]. *)
Theorem addEvent_occupied_timestamp ts v v0 q :
  bijective q → _ts2Val q !! ts = Some v0 → _val2Ts q !! v = None →
  _ts2Val (addEvent ts v q) = _ts2Val q ∧
  _val2Ts (addEvent ts v q) !! v = Some ts ∧
  ¬ bijective (addEvent ts v q) ∧
  ∀ now, has_pending now (addEvent ts v q) →
    ∃ q' calls,
      run_iteration now (addEvent ts v q) = Done q' calls ∧
      _val2Ts q' !! v = Some ts ∧ v ∉ (delivered calls).*2.
Proof.
  intros Hb Hts Hv.
  assert (_ts2Val (addEvent ts v q) = _ts2Val q) as E1
    by (rewrite addEvent_ts2Val; apply emplace_taken; eauto).
  assert (_val2Ts (addEvent ts v q) !! v = Some ts) as E2.
  { rewrite addEvent_val2Ts, emplace_free by done. apply lookup_insert_eq. }
  split_and!; try done.
  - intros Hb1. apply Hb1 in E2. rewrite E1 in E2. apply Hb in E2. congruence.
  - intros now Hpend.
    destruct (run_iteration_has_pending _ _ Hpend)
      as (q' & calls & Hrun & _ & Hmem & _ & Hkeep).
    assert (v ∉ (delivered calls).*2) as Hnot.
    { intros ([ts' v'] & Heq & [Hin _]%Hmem)%list_elem_of_fmap.
      simpl in Heq. subst v'.
      rewrite E1 in Hin. apply Hb in Hin. congruence. }
    exists q', calls. split_and!; try done. by rewrite Hkeep.
Qed.
End more_worker.

(** ** The run of [main] *)





(** ** The further properties on concrete objects *)

(** Every binding of a concrete map, one case each. *)
Ltac each_binding Hin :=
  apply elem_of_map_to_list in Hin; vm_compute in Hin;
  repeat (apply elem_of_cons in Hin as [Hin|Hin];
          [injection Hin as -> ->|]);
  [..|apply elem_of_nil in Hin; destruct Hin].

Lemma has_pending_after_remove : has_pending 5 (removeEvent_value 10 two_events).
Proof. exists (CENTENNIAL 0), 0. split; by_computation. Qed.

Lemma removeEvent_overloads_agree_witness :
  removeEvent_value 10 two_events = removeEvent_timestamp 1 two_events.
Proof.
  destruct (removeEvent_overloads_agree 1 10 two_events) as [Hsame _].
  - apply bijective_two_events.
  - by_computation.
  - exact Hsame.
Defined.

Lemma addEvent_removeEvent_round_trip_witness :
  removeEvent_value 70 (addEvent 7 70 two_events) = notify_one two_events ∧
  removeEvent_timestamp 7 (addEvent 7 70 two_events) = notify_one two_events.
Proof.
  apply (addEvent_removeEvent_round_trip 7 70 two_events); by_computation.
Defined.

Lemma addEvent_commute_witness :
  addEvent 7 70 (addEvent 8 80 two_events)
  = addEvent 8 80 (addEvent 7 70 two_events).
Proof. apply (addEvent_commute 7 70 8 80 two_events); by_computation. Defined.

Lemma updates_undefined_iff_witness :
  is_Some (updateValue 1 99 two_events) ∧
  updateValue 1 7 (removeEvent_timestamp 3 (addEvent 3 10 two_events)) = None.
Proof.
  split.
  - apply (proj2 (proj2 (updates_undefined_iff 1 99 two_events))).
    apply bijective_two_events.
  - apply (proj1 (updates_undefined_iff 1 7
                    (removeEvent_timestamp 3 (addEvent 3 10 two_events)))).
    exists 10. split; by_computation.
Defined.

Lemma api_reaches_undefined_witness :
  exec_all [AddEvent 1 10; AddEvent 2 10; RemoveEventTimestamp 2;
            UpdateValue 1 7] (MyTimedEventQueue 0) = None.
Proof. apply (api_reaches_undefined 0 0 1 2 10 7); by_computation. Defined.

Lemma addEvent_then_update_witness :
  updateTimestamp 8 70 (addEvent 7 70 two_events)
  = Some (notify_one (addEvent 8 70 two_events)) ∧
  updateValue 7 80 (addEvent 7 70 two_events)
  = Some (notify_one (addEvent 7 80 two_events)).
Proof.
  destruct (addEvent_then_update 7 70 two_events) as [Hts Hv];
    [by_computation..|].
  split; [apply Hts|apply Hv]; by_computation.
Defined.

Lemma update_to_current_witness :
  updateValue 1 10 two_events = Some (notify_one two_events) ∧
  updateTimestamp 1 10 two_events = Some (notify_one two_events).
Proof.
  apply (update_to_current 1 10 two_events);
    [apply bijective_two_events|by_computation].
Defined.

Lemma addEvent_duplicate_value_witness :
  ¬ bijective (addEvent 7 10 two_events) ∧
  _ts2Val (removeEvent_value 10 (addEvent 7 10 two_events)) !! 7 = Some 10.
Proof.
  destruct (addEvent_duplicate_value 7 10 1 two_events)
    as (_ & _ & Hnot & Hleft & _).
  - apply bijective_two_events.
  - by_computation.
  - by_computation.
  - split; assumption.
Defined.

Lemma removed_event_is_not_delivered_witness :
  ∃ q' calls,
    run_iteration 5 (removeEvent_value 10 two_events) = Done q' calls ∧
    10 ∉ (delivered calls).*2.
Proof.
  apply (proj1 (removed_event_is_not_delivered 5 two_events)).
  - apply bijective_two_events.
  - apply has_pending_after_remove.
Defined.

Lemma run_iteration_undefined_iff_witness :
  ¬ has_pending 5 (removeEvent_value 0 (MyTimedEventQueue 0)).
Proof.
  apply (proj1 (run_iteration_undefined_iff 5
                  (removeEvent_value 0 (MyTimedEventQueue 0)) eq_refl)).
  by_computation.
Defined.

Lemma new_object_rounds_witness :
  run_iteration 5 (MyTimedEventQueue 0) = Done (MyTimedEventQueue 0) [] ∧
  run_iteration (CENTENNIAL 0) (MyTimedEventQueue 0) = Undefined.
Proof.
  destruct (new_object_rounds 0 0 5) as [Hbefore _].
  destruct (new_object_rounds 0 0 (CENTENNIAL 0)) as [_ Hafter].
  split; [apply Hbefore|apply Hafter]; by_computation.
Defined.

Lemma run_iteration_keeps_witness :
  ∃ q' calls, run_iteration 5 two_events = Done q' calls ∧ bijective q'.
Proof.
  eexists _, _. split; [by_computation|].
  refine (proj1 (run_iteration_keeps 5 two_events _ _ _) bijective_two_events).
  by_computation.
Defined.

Lemma round_delivers_once_witness :
  ∃ q' calls,
    run_iteration 5 two_events = Done q' calls ∧
    run_iteration 3 q' = Done q' [].
Proof.
  eexists _, _. split; [by_computation|].
  eapply (round_delivers_once 5 3 two_events); by_computation.
Defined.

Lemma rounds_compose_witness :
  ∃ q1 calls1 q2 calls2,
    run_iteration 1 two_events = Done q1 calls1 ∧
    run_iteration 5 q1 = Done q2 calls2 ∧
    run_iteration 5 two_events = Done q2 (calls1 ++ calls2).
Proof.
  apply (rounds_compose 1 5 two_events);
    [by_computation|apply has_pending_two_events].
Defined.

Lemma exec_all_effects_witness :
  ∃ q, exec_all (main_calls 0) (MyTimedEventQueue 0) = Some q ∧
       _cv_notified q = 7%nat.
Proof.
  eexists. split; [by_computation|].
  edestruct (exec_all_effects (main_calls 0) (MyTimedEventQueue 0))
    as (Hn & _); [by_computation|].
  exact Hn.
Defined.

Lemma stop_halts_delivery_witness :
  _exit (stop two_events) = true ∧
  ∀ (l : list (action Z)) q' calls,
    act_all_calls l (stop two_events) = Some (q', calls) → calls = [].
Proof.
  destruct (stop_halts_delivery two_events) as (He & _ & _ & _ & Hnone);
    [by_computation|].
  split; assumption.
Defined.

Lemma reschedule_earlier_fires_first_witness :
  ∃ q1, updateTimestamp 0 20 two_events = Some q1 ∧
        begin (_ts2Val q1) = Some (0, 20).
Proof.
  destruct (reschedule_earlier_fires_first 0 20 2 two_events)
    as (q1 & Hq1 & Hbeg & _).
  - apply bijective_two_events.
  - by_computation.
  - intros ts' v' Hin. each_binding Hin; by_computation.
  - exists q1. split; assumption.
Defined.

Lemma updated_value_is_delivered_witness :
  ∃ q1, updateValue 1 99 two_events = Some q1 ∧
        ∃ q' calls, run_iteration 5 q1 = Done q' calls ∧
                    (1, 99) ∈ delivered calls ∧ 10 ∉ (delivered calls).*2.
Proof.
  destruct (updated_value_is_delivered 1 99 10 two_events)
    as (q1 & Hq1 & Hround).
  - apply bijective_two_events.
  - by_computation.
  - by_computation.
  - exists q1. split; [assumption|]. apply Hround; [by_computation..|].
    exists (CENTENNIAL 0), 0.
    assert (Some q1 = updateValue 1 99 two_events) as E by (symmetry; exact Hq1).
    vm_compute in E. injection E as ->. split; by_computation.
Defined.

Lemma addEvent_occupied_timestamp_witness :
  _ts2Val (addEvent 1 99 two_events) = _ts2Val two_events ∧
  ¬ bijective (addEvent 1 99 two_events).
Proof.
  destruct (addEvent_occupied_timestamp 1 99 10 two_events)
    as (Hsame & _ & Hnot & _).
  - apply bijective_two_events.
  - by_computation.
  - by_computation.
  - split; assumption.
Defined.

